(** * LookupPlugin: schema remapping for FormVueLatte

    A shallow embedding of [src/index.js] and the properties of its
    component and property remapping.

    Modelling conventions.
    - A JavaScript object used as a dictionary (a schema element, the
      [mapComponents] table) is a plain object: a [gmap] from its own
      property names to values, with [Object.prototype] behind it for
      the names it does not have itself.  An object that is enumerated
      with [for ... in] (a [mapProps] mapping) is the list of its
      entries in enumeration order.
    - Caller-supplied functions are total and free of side effects.
    - [console.warn] is a writer effect: every function that can reach it
      returns its result paired with the list of calls made, in order.
    - The first part works on values; the module [Heap] further down
      re-runs the same functions over an explicit store of objects and
      arrays, where aliasing and in-place updates are visible. *)

From stdpp Require Import base gmap list strings.

(** ** Values *)

(** Of a number the plugin observes two things only: whether it is
    truthy (neither zero nor [NaN]) and the string it converts to; a
    number is given by these two. *)
Inductive primitive :=
  | VUndefined
  | VNull
  | VBool (b : bool)
  | VNum (truthy : bool) (text : string)
  | VStr (s : string).

(** A non-primitive (object, array, function stored as data) is opaque to
    the plugin: it is truthy, and [key] is the string it converts to when
    it is used as a property name. *)
Inductive value :=
  | VPrim (p : primitive)
  | VObj (key : string).

Coercion VPrim : primitive >-> value.

(** [!v] is [negb (ToBoolean v)]. *)
Definition ToBoolean (v : value) : bool :=
  match v with
  | VPrim VUndefined | VPrim VNull => false
  | VPrim (VBool b) => b
  | VPrim (VNum truthy _) => truthy
  | VPrim (VStr s) => negb (String.eqb s "")
  | VObj _ => true
  end.

(** The conversion applied by [obj[v]]. *)
Definition ToPropertyKey (v : value) : string :=
  match v with
  | VPrim VUndefined => "undefined"
  | VPrim VNull => "null"
  | VPrim (VBool true) => "true"
  | VPrim (VBool false) => "false"
  | VPrim (VNum _ text) => text
  | VPrim (VStr s) => s
  | VObj key => key
  end.

(** [v === false] *)
Definition is_false (v : value) : bool :=
  match v with
  | VPrim (VBool false) => true
  | _ => false
  end.

(** ** Schemas *)

Abbreviation element := (gmap string value).
Abbreviation row := (list (gmap string value)).
Abbreviation schema := (list (list (gmap string value))).

(** No row of the schema has an element. *)
Definition no_elements (s : schema) : bool :=
  forallb (λ r : row, match r with [] => true | _ => false end) s.

(** What a plain object inherits: the members of [Object.prototype],
    each with the value that reading it yields (the built-in functions
    as V8 prints them; [__proto__] reads as [Object.prototype]
    itself). *)
Definition Object_prototype : gmap string value :=
  {[ "constructor" := VObj "function Object() { [native code] }";
     "__defineGetter__"
       := VObj "function __defineGetter__() { [native code] }";
     "__defineSetter__"
       := VObj "function __defineSetter__() { [native code] }";
     "hasOwnProperty" := VObj "function hasOwnProperty() { [native code] }";
     "__lookupGetter__"
       := VObj "function __lookupGetter__() { [native code] }";
     "__lookupSetter__"
       := VObj "function __lookupSetter__() { [native code] }";
     "isPrototypeOf" := VObj "function isPrototypeOf() { [native code] }";
     "propertyIsEnumerable"
       := VObj "function propertyIsEnumerable() { [native code] }";
     "toString" := VObj "function toString() { [native code] }";
     "valueOf" := VObj "function valueOf() { [native code] }";
     "__proto__" := VObj "[object Object]";
     "toLocaleString" := VObj "function toLocaleString() { [native code] }" ]}.

(** [k in obj]: an own property, or a member of [Object.prototype]. *)
Definition has_property (obj : gmap string value) (k : string) : bool :=
  bool_decide (is_Some (obj !! k))
  || bool_decide (is_Some (Object_prototype !! k)).

(** [obj[k]]: the own property, else the inherited member, else
    [undefined]. *)
Definition get (el : element) (k : string) : value :=
  match el !! k with
  | Some v => v
  | None => default (VPrim VUndefined) (Object_prototype !! k)
  end.

(** [obj[k] = v].  An own property is overwritten and a new name is
    added, also when it shadows an inherited function.  The one
    exception is [__proto__] on an object without an own property of
    that name: the assignment reaches the setter of [Object.prototype],
    which adds no property (given an object or [null] it replaces the
    prototype of [obj], which the map of own properties does not
    show). *)
Definition assign (obj : gmap string value) (k : string) (v : value)
  : gmap string value :=
  if bool_decide (k = "__proto__") && negb (bool_decide (is_Some (obj !! k)))
  then obj
  else <[k := v]> obj.

(** [obj[k]] for an arbitrary value [k]. *)
Definition lookup_key (obj : gmap string value) (k : value) : value :=
  get obj (ToPropertyKey k).

(** ** Mapping specifications *)

(** The replacement for a property: a value (a string, or [false]), or a
    function of the element ([typeof replacement === 'function']). *)
Inductive directive :=
  | DVal (v : value)
  | DFun (f : element → value).

Abbreviation mapping := (list (string * directive)).

(** The [mapProps] option: a primitive ([null] by default), a function of
    the element that returns a mapping, or a mapping. *)
Inductive mapPropsArg :=
  | MPPrim (p : primitive)
  | MPFun (fn : element → mapping)
  | MPObj (entries : mapping).

Definition mapProps_truthy (mp : mapPropsArg) : bool :=
  match mp with
  | MPPrim p => ToBoolean p
  | MPFun _ | MPObj _ => true
  end.

Definition typeof (mp : mapPropsArg) : string :=
  match mp with
  | MPPrim VUndefined => "undefined"
  | MPPrim VNull => "object"
  | MPPrim (VBool _) => "boolean"
  | MPPrim (VNum _ _) => "number"
  | MPPrim (VStr _) => "string"
  | MPFun _ => "function"
  | MPObj _ => "object"
  end.

(** What [for (const prop in mapProps)] enumerates once the guards of
    [mapProperties] have been passed. *)
Definition for_in (mp : mapPropsArg) : mapping :=
  match mp with
  | MPObj entries => entries
  | _ => []
  end.

(** ** The environment and the console *)

(** The global [process], which the code takes to exist; [env] is
    [None] when [process.env] is missing. *)
Record process := { env : option (gmap string string) }.

Record consoleWarn := Warn { warn_prop : string; warn_el : element }.

(** [process.env && process.env.NODE_ENV !== 'production'] *)
Definition warnEnabled (p : process) : bool :=
  match env p with
  | None => false
  | Some e => negb (bool_decide (e !! "NODE_ENV" = Some "production"))
  end.

Definition W (A : Type) : Type := A * list consoleWarn.

#[global] Instance W_ret : MRet W := λ A a, (a, []).
#[global] Instance W_bind : MBind W := λ A B k m,
  let '(a, l1) := m in let '(b, l2) := k a in (b, l1 ++ l2).

Definition warn (prop : string) (el : element) : W unit :=
  (tt, [Warn prop el]).

Definition wmap {A B} (f : A → B) (m : W A) : W B := (f m.1, m.2).
Infix "<$$>" := wmap (at level 61, left associativity).

(** The [mapComponents] option: a table, or [null]. *)
Inductive mapComponentsArg :=
  | MCObj (table : gmap string value)
  | MCNull.

(** The options of the plugin; an absent option takes its default. *)
Record configuration := {
  cfg_mapComponents : option mapComponentsArg;
  cfg_mapProps : option mapPropsArg
}.

Inductive outcome :=
  | Returned (parsedSchema : schema)
  | TypeError.

(** ** The plugin *)

Section Plugin.
Variable proc : process.

Definition mapElementsInSchema (s : schema) (fn : element → W element)
  : W schema :=
  mapM (λ r : row, mapM (λ el, fn el) r) s.

(** The callback of [mapComps]; [lookup_key] is [mapComponents[k]]. *)
Definition mapComps_fn (mapComponents : gmap string value) (el : element)
  : W element :=
  let newKey := lookup_key mapComponents (get el "component") in
  if negb (ToBoolean newKey) then mret el
  else mret (<["component" := lookup_key mapComponents (get el "component")]> el).

Definition mapComps (s : schema) (mapComponents : gmap string value)
  : W schema :=
  mapElementsInSchema s (mapComps_fn mapComponents).

(** [mapComps] when the table is [null]: the lookup in the callback
    throws at the first element, so the call returns (a copy of the
    schema) only when no row has an element. *)
Definition mapComps_null (s : schema) : outcome :=
  if no_elements s then Returned s else TypeError.

Definition replacePropInElement
    (el : element) (prop : string) (replacement : directive) : W element :=
  let continue (propReplacement : value) : W element :=
    if negb (has_property el prop) then
      (if warnEnabled proc then warn prop el else mret tt) ;;
      mret el
    else
      let originalValue := get el prop in
      let elementCopy := delete prop el in
      if is_false propReplacement then mret elementCopy
      else mret (assign elementCopy (ToPropertyKey propReplacement)
                   originalValue)
    in
  match replacement with
  | DFun f =>
      let propReplacement := f el in
      if negb (ToBoolean propReplacement) then mret el
      else continue propReplacement
  | DVal v => continue v
  end.

(** The loop of [mapProperties]; [schemaCopy] is [None] while the
    variable is still [undefined]. *)
Fixpoint mapProperties_loop (s : schema) (entries : mapping)
    (schemaCopy : option schema) : W (option schema) :=
  match entries with
  | [] => mret schemaCopy
  | (prop, replacement) :: rest =>
      schemaCopy' ← mapElementsInSchema s (λ el,
        replacePropInElement el prop replacement);
      mapProperties_loop s rest (Some schemaCopy')
  end.

Fixpoint mapPropsForElement (el : element) (map : mapping) : W element :=
  match map with
  | [] => mret el
  | (prop, replacement) :: rest =>
      el' ← replacePropInElement el prop replacement;
      mapPropsForElement el' rest
  end.

Definition mapPropertiesWithUserFunction (s : schema)
    (fn : element → mapping) : W schema :=
  mapElementsInSchema s (λ el, mapPropsForElement el (fn el)).

(** The result is [None] when the function returns [undefined]. *)
Definition mapProperties (s : schema) (mapProps : mapPropsArg)
  : W (option schema) :=
  if negb (mapProps_truthy mapProps)
     || negb (bool_decide (typeof mapProps ∈ ["object"; "function"]))
  then mret (Some s)
  else
    match mapProps with
    | MPFun fn => Some <$$> mapPropertiesWithUserFunction s fn
    | _ => mapProperties_loop s (for_in mapProps) None
    end.

(** The value of [replacedSchema] once the effect registered by the
    plugin has run, or the [TypeError] of calling [map] on [undefined]. *)
Definition LookupPlugin (cfg : configuration) (parsedSchema : schema)
  : W outcome :=
  let mapComponents := default (MCObj ∅) (cfg_mapComponents cfg) in
  let mapProps := default (MPPrim VNull) (cfg_mapProps cfg) in
  replaced ← mapProperties parsedSchema mapProps;
  match replaced with
  | None => mret TypeError
  | Some replaced =>
      match mapComponents with
      | MCObj table => Returned <$$> mapComps replaced table
      | MCNull => mret (mapComps_null replaced)
      end
  end.

End Plugin.

(** The directive does not end in the early return of the function
    case: it is not a function, or it is one whose result is truthy. *)
Definition proceeds (replacement : directive) (el : element) : Prop :=
  match replacement with
  | DVal _ => True
  | DFun f => ToBoolean (f el) = true
  end.

(** ** Reference definitions and sample data *)

(** The static branch of the property mapper as the specification words
    it: the accumulator starts as the input schema, and the walk for each
    key takes the schema produced by the walk for the key before it. *)
Fixpoint sequential_mapProperties (proc : process) (s : schema)
    (entries : mapping) : W schema :=
  match entries with
  | [] => mret s
  | (prop, replacement) :: rest =>
      s' ← mapElementsInSchema s (λ el,
        replacePropInElement proc el prop replacement);
      sequential_mapProperties proc s' rest
  end.

(** The number of elements of every row, in order. *)
Definition shape (s : schema) : list nat := length <$> s.

(** The element in column [j] of row [i]. *)
Definition elementAt (s : schema) (i j : nat) : option element :=
  s !! i ≫= (.!! j).

(** A development build: [process.env] exists and [NODE_ENV] is unset. *)
Definition development : process := {| env := Some ∅ |}.

(** A production build. *)
Definition production : process :=
  {| env := Some {[ "NODE_ENV" := "production" ]} |}.

Definition firstName_element : element :=
  {[ "model" := VPrim (VStr "firstName");
     "type" := VPrim (VStr "FormText");
     "label" := VPrim (VStr "First Name") ]}.

Definition formText_component : element :=
  {[ "model" := VPrim (VStr "firstName");
     "component" := VPrim (VStr "FormText") ]}.

Definition scenario_mapProps : mapping :=
  [ ("type", DVal (VStr "component")); ("label", DVal (VBool false)) ].

Definition scenario_configuration : configuration :=
  {| cfg_mapComponents :=
       Some (MCObj {[ "FormText" := VPrim (VStr "BaseInput") ]});
     cfg_mapProps := Some (MPObj scenario_mapProps) |}.

(** ** The same functions over a store

    Objects and arrays live in a store and are passed by reference.  An
    object literal or a call of [Array.prototype.map] allocates; [delete]
    and assignment to a property update the store in place.  A read of a
    location at the wrong type stops the run with a [TypeError]. *)

Module Heap.

Abbreviation loc := positive.

Inductive object :=
  | OElement (props : gmap string value)
  | OArray (items : list positive).

Record state := State {
  heap : gmap positive object;
  console : list (string * positive)
}.

Inductive completion (A : Type) :=
  | Val (a : A)
  | Throw.
Arguments Val {A} a.
Arguments Throw {A}.

Definition ST (A : Type) : Type := state → completion A * state.

#[global] Instance ST_ret : MRet ST := λ A a σ, (Val a, σ).
#[global] Instance ST_bind : MBind ST := λ A B k m σ,
  match m σ with
  | (Val a, σ') => k a σ'
  | (Throw, σ') => (Throw, σ')
  end.

Definition throw {A} : ST A := λ σ, (Throw, σ).

Definition alloc (o : object) : ST loc := λ σ,
  let l := fresh (dom (heap σ)) in
  (Val l, State (<[l := o]> (heap σ)) (console σ)).

Definition store (l : loc) (o : object) : ST unit := λ σ,
  (Val tt, State (<[l := o]> (heap σ)) (console σ)).

Definition read_element (l : loc) : ST element := λ σ,
  match heap σ !! l with
  | Some (OElement props) => (Val props, σ)
  | _ => (Throw, σ)
  end.

Definition read_array (l : loc) : ST (list loc) := λ σ,
  match heap σ !! l with
  | Some (OArray items) => (Val items, σ)
  | _ => (Throw, σ)
  end.

(** [delete obj[prop]] *)
Definition delete_prop (obj : loc) (prop : string) : ST unit :=
  props ← read_element obj;
  store obj (OElement (delete prop props)).

(** [obj[key] = v] *)
Definition set_prop (obj : loc) (key : string) (v : value) : ST unit :=
  props ← read_element obj;
  store obj (OElement (assign props key v)).

Definition console_warn (prop : string) (el : loc) : ST unit := λ σ,
  (Val tt, State (heap σ) (console σ ++ [(prop, el)])).

(** [arr.map(fn)] *)
Definition array_map (arr : loc) (fn : loc → ST loc) : ST loc :=
  items ← read_array arr;
  items' ← mapM fn items;
  alloc (OArray items').

Section Plugin.
Variable proc : process.

Definition mapElementsInSchema (s : loc) (fn : loc → ST loc) : ST loc :=
  array_map s (λ r, array_map r (λ el, fn el)).

Definition mapComps_fn (mapComponents : gmap string value) (el : loc)
  : ST loc :=
  props ← read_element el;
  let newKey := lookup_key mapComponents (get props "component") in
  if negb (ToBoolean newKey) then alloc (OElement props)
  else
    alloc (OElement
      (<["component" := lookup_key mapComponents (get props "component")]>
         props)).

Definition mapComps (s : loc) (mapComponents : gmap string value)
  : ST loc :=
  mapElementsInSchema s (mapComps_fn mapComponents).

Definition replacePropInElement
    (el : loc) (prop : string) (replacement : directive) : ST loc :=
  props ← read_element el;
  let continue (propReplacement : value) : ST loc :=
    if negb (has_property props prop) then
      (if warnEnabled proc then console_warn prop el else mret tt) ;;
      mret el
    else
      let originalValue := get props prop in
      elementCopy ← alloc (OElement props);
      delete_prop elementCopy prop ;;
      if is_false propReplacement then mret elementCopy
      else
        set_prop elementCopy (ToPropertyKey propReplacement)
          originalValue ;;
        mret elementCopy
    in
  match replacement with
  | DFun f =>
      let propReplacement := f props in
      if negb (ToBoolean propReplacement) then mret el
      else continue propReplacement
  | DVal v => continue v
  end.

Fixpoint mapProperties_loop (s : loc) (entries : mapping)
    (schemaCopy : option loc) : ST (option loc) :=
  match entries with
  | [] => mret schemaCopy
  | (prop, replacement) :: rest =>
      schemaCopy' ← mapElementsInSchema s (λ el,
        replacePropInElement el prop replacement);
      mapProperties_loop s rest (Some schemaCopy')
  end.

Fixpoint mapPropsForElement (el : loc) (map : mapping) : ST loc :=
  match map with
  | [] => mret el
  | (prop, replacement) :: rest =>
      el' ← replacePropInElement el prop replacement;
      mapPropsForElement el' rest
  end.

Definition mapPropertiesWithUserFunction (s : loc)
    (fn : element → mapping) : ST loc :=
  mapElementsInSchema s (λ el,
    props ← read_element el;
    mapPropsForElement el (fn props)).

Definition mapProperties (s : loc) (mapProps : mapPropsArg)
  : ST (option loc) :=
  if negb (mapProps_truthy mapProps)
     || negb (bool_decide (typeof mapProps ∈ ["object"; "function"]))
  then mret (Some s)
  else
    match mapProps with
    | MPFun fn =>
        s' ← mapPropertiesWithUserFunction s fn;
        mret (Some s')
    | _ => mapProperties_loop s (for_in mapProps) None
    end.

(** [mapComps] when the table is [null]: the callback throws. *)
Definition mapComps_null (s : loc) : ST loc :=
  mapElementsInSchema s (λ _, throw).

Definition LookupPlugin (cfg : configuration) (parsedSchema : loc)
  : ST loc :=
  let mapComponents := default (MCObj ∅) (cfg_mapComponents cfg) in
  let mapProps := default (MPPrim VNull) (cfg_mapProps cfg) in
  replaced ← mapProperties parsedSchema mapProps;
  match replaced with
  | None => throw
  | Some replaced =>
      match mapComponents with
      | MCObj table => mapComps replaced table
      | MCNull => mapComps_null replaced
      end
  end.

End Plugin.

(** *** Reading a schema back from the store *)

Definition element_at (h : gmap positive object) (l : loc)
  : option element :=
  match h !! l with
  | Some (OElement props) => Some props
  | _ => None
  end.

(** The array at [l], every item read back with [item_at]. *)
Definition array_at {A} (item_at : gmap positive object → loc → option A)
    (h : gmap positive object) (l : loc) : option (list A) :=
  match h !! l with
  | Some (OArray items) => mapM (item_at h) items
  | _ => None
  end.

Definition row_at : gmap positive object → loc → option row :=
  array_at element_at.

Definition schema_at : gmap positive object → loc → option schema :=
  array_at row_at.

(** Objects of the store [h] that did not exist in the store [h0]: an
    element at a location unused in [h0]; an array at a location unused
    in [h0] whose items all satisfy [item_new]. *)
Definition new_element (h0 h : gmap positive object) (l : loc) : Prop :=
  h0 !! l = None ∧ ∃ props, h !! l = Some (OElement props).

Definition new_array (item_new : gmap positive object → loc → Prop)
    (h0 h : gmap positive object) (l : loc) : Prop :=
  h0 !! l = None
  ∧ ∃ items, h !! l = Some (OArray items) ∧ Forall (item_new h) items.

(** A schema none of whose objects (the array of rows, the rows, the
    elements) existed in [h0]. *)
Definition new_schema (h0 h : gmap positive object) (l : loc) : Prop :=
  new_array (new_array (new_element h0) h0) h0 h l.

(** Every object of [σ] is the same object in [σ']. *)
Definition unchanged (σ σ' : state) : Prop :=
  ∀ l o, heap σ !! l = Some o → heap σ' !! l = Some o.

(** Nothing that was in the store before the run has changed: every
    location holds the object it held, and every schema that could be
    read from the store reads back as the same value. *)
Definition intact (σ σ' : state) : Prop :=
  unchanged σ σ'
  ∧ ∀ s S, schema_at (heap σ) s = Some S → schema_at (heap σ') s = Some S.

(** A store with the schema of the end-to-end scenario at location 3. *)
Definition scenario_state : state :=
  State {[ 1%positive := OElement firstName_element;
           2%positive := OArray [1%positive];
           3%positive := OArray [2%positive] ]} [].

(** A store with a flat schema at location 2: its item is an element,
    not a row. *)
Definition flat_state : state :=
  State {[ 1%positive := OElement firstName_element;
           2%positive := OArray [1%positive] ]} [].

End Heap.

(** ** Predicates on store computations *)

(** A computation that leaves every existing object alone. *)
Definition frame {A} (m : Heap.ST A) : Prop :=
  ∀ σ, Heap.unchanged σ (m σ).2.

(** Reading back survives the growth of the store. *)
Definition monotone {A}
    (item_at : gmap positive Heap.object → Heap.loc → option A) : Prop :=
  ∀ h h' l a, h ⊆ h' → item_at h l = Some a → item_at h' l = Some a.

(** Run at a location that reads as [a], [fn] returns a location that
    reads as [f a], and changes no object that existed before. *)
Definition refines {A B}
    (in_at : gmap positive Heap.object → Heap.loc → option A)
    (out_at : gmap positive Heap.object → Heap.loc → option B)
    (fn : Heap.loc → Heap.ST Heap.loc) (f : A → B) : Prop :=
  ∀ σ l a, in_at (Heap.heap σ) l = Some a →
    ∃ l' σ', fn l σ = (Heap.Val l', σ')
             ∧ Heap.unchanged σ σ'
             ∧ out_at (Heap.heap σ') l' = Some (f a).

(** The result of [mapProperties] in the store against its value-level
    result: both [undefined], or a location that reads as the schema. *)
Definition reads_as (h : gmap positive Heap.object)
    (r : option Heap.loc) (R : option schema) : Prop :=
  match r, R with
  | None, None => True
  | Some l, Some sch => Heap.schema_at h l = Some sch
  | _, _ => False
  end.

(** The outcome of a store-level run against a value-level outcome:
    both a [TypeError], or a location that reads as the schema. *)
Definition ends_as (h : gmap positive Heap.object)
    (r : Heap.completion Heap.loc) (R : outcome) : Prop :=
  match r, R with
  | Heap.Val l, Returned out => Heap.schema_at h l = Some out
  | Heap.Throw, TypeError => True
  | _, _ => False
  end.

(** Evaluation of the primitive store operations. *)
Ltac run_store :=
  unfold mbind, mret, Heap.ST_bind, Heap.ST_ret, Heap.alloc,
    Heap.delete_prop, Heap.set_prop, Heap.read_element, Heap.store,
    Heap.console_warn, mbind, Heap.ST_bind;
  simpl; rewrite ?lookup_insert_eq; simpl; rewrite ?lookup_insert_eq; simpl.

(** * Properties of the value-level model *)

Lemma W_bind_unfold {A B} (m : W A) (k : A → W B) :
  m ≫= k = ((k m.1).1, m.2 ++ (k m.1).2).
Proof. destruct m as [a l1]. unfold mbind, W_bind. simpl. by destruct (k a). Qed.

Section WriterFacts.
Context {A B : Type}.
Implicit Types (f : A → W B) (l : list A).

Lemma mapM_W_fst f l : (mapM f l).1 = (λ x, (f x).1) <$> l.
Proof.
  induction l as [|x l IH]; [done|].
  cbn [mapM]. rewrite !W_bind_unfold. cbn. by rewrite IH.
Qed.

Lemma mapM_W_pure (g : A → B) l : mapM (λ x, mret (g x) : W B) l = (g <$> l, []).
Proof.
  induction l as [|x l IH]; [done|].
  cbn [mapM]. rewrite IH. done.
Qed.

Lemma mapM_W_ext f (g : A → W B) l :
  (∀ x, x ∈ l → f x = g x) → mapM f l = mapM g l.
Proof.
  induction l as [|x l IH]; intros Hfg; [done|].
  cbn [mapM]. rewrite Hfg by left. rewrite IH; [done|].
  intros y Hy. apply Hfg. by right.
Qed.
End WriterFacts.

Lemma mapElementsInSchema_fst (s : schema) (fn : element → W element) :
  (mapElementsInSchema s fn).1
  = (λ r : row, (λ el, (fn el).1) <$> r) <$> s.
Proof.
  unfold mapElementsInSchema. rewrite mapM_W_fst.
  apply list_fmap_ext. intros _ r _. apply mapM_W_fst.
Qed.

Lemma mapElementsInSchema_shape (s : schema) (fn : element → W element) :
  shape (mapElementsInSchema s fn).1 = shape s.
Proof.
  rewrite mapElementsInSchema_fst. unfold shape. rewrite <- list_fmap_compose.
  apply list_fmap_ext. intros _ r _. simpl. apply length_fmap.
Qed.

Lemma mapElementsInSchema_elementAt (s : schema) fn i j :
  elementAt (mapElementsInSchema s fn).1 i j
  = (λ el, (fn el).1) <$> elementAt s i j.
Proof.
  rewrite mapElementsInSchema_fst. unfold elementAt.
  rewrite list_lookup_fmap. destruct (s !! i) as [r|]; [|done].
  simpl. by rewrite list_lookup_fmap.
Qed.

Lemma mapElementsInSchema_id (s : schema) (fn : element → W element) :
  (∀ el, fn el = (el, [])) → mapElementsInSchema s fn = (s, []).
Proof.
  intros Hfn. unfold mapElementsInSchema.
  assert (Hrow : ∀ r : row, mapM (λ el, fn el) r = (r, [])).
  { intros r. rewrite (mapM_W_ext _ (λ el, mret (id el))) by (intros; apply Hfn).
    rewrite mapM_W_pure. by rewrite list_fmap_id. }
  rewrite (mapM_W_ext _ (λ r, mret (id r))) by (intros; apply Hrow).
  rewrite mapM_W_pure. by rewrite list_fmap_id.
Qed.

(** ** Property access on plain objects *)

Lemma has_property_own (obj : gmap string value) (k : string) (v : value) :
  obj !! k = Some v → has_property obj k = true.
Proof. intros Hk. unfold has_property. by rewrite Hk. Qed.

Lemma has_property_false (obj : gmap string value) (k : string) :
  has_property obj k = false → obj !! k = None ∧ Object_prototype !! k = None.
Proof.
  unfold has_property. intros [H1 H2]%orb_false_elim.
  apply bool_decide_eq_false in H1, H2.
  split; by apply eq_None_not_Some.
Qed.

Lemma get_own (obj : gmap string value) (k : string) (v : value) :
  obj !! k = Some v → get obj k = v.
Proof. intros Hk. unfold get. by rewrite Hk. Qed.

Lemma assign_insert (obj : gmap string value) (k : string) (v : value) :
  k ≠ "__proto__" ∨ is_Some (obj !! k) → assign obj k v = <[k := v]> obj.
Proof.
  intros Hk. unfold assign.
  destruct (bool_decide (k = "__proto__")) eqn:Hp; [|done].
  apply bool_decide_eq_true in Hp.
  destruct Hk as [Hk|Hk]; [done|]. by rewrite bool_decide_eq_true_2.
Qed.

(** An assignment changes no name other than the one assigned to. *)
Lemma assign_other (obj : gmap string value) (k k' : string) (v : value) :
  k' ≠ k → assign obj k v !! k' = obj !! k'.
Proof.
  intros Hne. unfold assign. destruct (_ && _); [done|].
  by apply lookup_insert_ne.
Qed.

(** ** The property rewriter *)

(** C5. When the directive is a function and its result on the element is
    falsy ([false], [undefined], [null], the empty string, [0]), the
    rewriter returns the element as it is and writes nothing to the
    console: the property is neither deleted nor renamed. *)
Theorem replacePropInElement_function_falsy_skips
    (proc : process) (el : element) (prop : string) (f : element → value) :
  ToBoolean (f el) = false →
  replacePropInElement proc el prop (DFun f) = (el, []).
Proof. intros Hf. unfold replacePropInElement. by rewrite Hf. Qed.

Lemma replacePropInElement_function_falsy_skips_witness :
  ToBoolean ((λ _ : element, VPrim (VBool false)) firstName_element) = false
  ∧ replacePropInElement development firstName_element "label"
      (DFun (λ _, VPrim (VBool false)))
    = (firstName_element, []).
Proof.
  split; [reflexivity|].
  apply (replacePropInElement_function_falsy_skips development
           firstName_element "label" (λ _, VPrim (VBool false))).
  reflexivity.
Defined.

Lemma falsy_results :
  Forall (λ v, ToBoolean v = false)
    [VPrim (VBool false); VPrim VUndefined; VPrim VNull;
     VPrim (VStr ""); VPrim (VNum false "0"); VPrim (VNum false "NaN")].
Proof. repeat constructor. Qed.

(** The rewriter on an element that has the property itself. *)
Lemma replacePropInElement_literal (proc : process) (el : element)
    (prop : string) (v x : value) :
  el !! prop = Some x →
  replacePropInElement proc el prop (DVal v)
  = (if is_false v then delete prop el
     else assign (delete prop el) (ToPropertyKey v) x, []).
Proof.
  intros Hprop. unfold replacePropInElement.
  rewrite (has_property_own _ _ _ Hprop), (get_own _ _ _ Hprop). simpl.
  by destruct (is_false v).
Qed.

Lemma replacePropInElement_function (proc : process) (el : element)
    (prop : string) (f : element → value) (x : value) :
  el !! prop = Some x →
  ToBoolean (f el) = true →
  replacePropInElement proc el prop (DFun f)
  = (assign (delete prop el) (ToPropertyKey (f el)) x, []).
Proof.
  intros Hprop Hf. unfold replacePropInElement.
  rewrite Hf, (has_property_own _ _ _ Hprop), (get_own _ _ _ Hprop). simpl.
  destruct (f el) as [[| |[]| |]|]; done.
Qed.

(** C6. When the element has the property and the directive is the
    literal [false], the rewriter returns the element without that
    property: the property is gone, every other property name reads as
    it did in the input (so no key was added), and nothing is written to
    the console. *)
Theorem replacePropInElement_false_deletes
    (proc : process) (el : element) (prop : string) (v : value) :
  el !! prop = Some v →
  ∃ el',
    replacePropInElement proc el prop (DVal (VBool false)) = (el', [])
    ∧ el' !! prop = None
    ∧ ∀ k, k ≠ prop → el' !! k = el !! k.
Proof.
  intros Hprop. exists (delete prop el). split; [|split].
  - by rewrite (replacePropInElement_literal _ _ _ _ v Hprop).
  - apply lookup_delete_eq.
  - intros k Hk. by apply lookup_delete_ne.
Qed.

Lemma replacePropInElement_false_deletes_witness :
  firstName_element !! "label" = Some (VPrim (VStr "First Name"))
  ∧ ∃ el',
      replacePropInElement development firstName_element "label"
        (DVal (VBool false)) = (el', [])
      ∧ el' !! "label" = None
      ∧ ∀ k, k ≠ "label" → el' !! k = firstName_element !! k.
Proof.
  split; [reflexivity|].
  apply (replacePropInElement_false_deletes development firstName_element
           "label" (VPrim (VStr "First Name"))).
  reflexivity.
Defined.



(** Whatever the directive, an element on which the property is not
    present comes back as it is. *)
Lemma replacePropInElement_missing_unchanged
    (proc : process) (el : element) (prop : string) (replacement : directive) :
  has_property el prop = false →
  (replacePropInElement proc el prop replacement).1 = el.
Proof.
  intros Hprop. unfold replacePropInElement.
  destruct replacement as [v|f]; rewrite ?Hprop.
  - by destruct (warnEnabled proc).
  - destruct (ToBoolean (f el)); [|done]. by destruct (warnEnabled proc).
Qed.

(** A name that the element only inherits counts as present: the
    rewriter copies the element and moves the inherited value, without
    a warning. *)
Lemma replacePropInElement_inherited (proc : process) (el : element)
    (prop key : string) (inherited : value) :
  el !! prop = None →
  Object_prototype !! prop = Some inherited →
  key ≠ "__proto__" →
  replacePropInElement proc el prop (DVal (VStr key))
  = (<[key := inherited]> el, []).
Proof.
  intros Hown Hin Hkey.
  assert (Hhas : has_property el prop = true).
  { unfold has_property. rewrite Hin.
    rewrite (bool_decide_eq_true_2 (is_Some (Some inherited))) by eauto.
    apply orb_true_r. }
  unfold replacePropInElement. rewrite Hhas. simpl.
  unfold get. rewrite Hown, Hin. simpl. rewrite delete_id by done.
  by rewrite assign_insert by (by left).
Qed.

(** C9. When the element has the property and the new name (a string
    directive, or the truthy result of a function directive) is the name
    of another property of the element, that other property is
    overwritten with the value of the renamed one: the result holds the
    renamed value under the new name, lacks the old name, agrees with
    the input everywhere else, and nothing is written to the console. *)
Theorem replacePropInElement_rename_overwrites
    (proc : process) (el : element) (prop key : string)
    (replacement : directive) (x y : value) :
  el !! prop = Some x →
  (replacement = DVal (VStr key)
   ∨ ∃ f, replacement = DFun f ∧ ToBoolean (f el) = true
          ∧ key = ToPropertyKey (f el)) →
  key ≠ prop →
  el !! key = Some y →
  ∃ el',
    replacePropInElement proc el prop replacement = (el', [])
    ∧ el' !! key = Some x
    ∧ el' !! prop = None
    ∧ ∀ k, k ≠ key → k ≠ prop → el' !! k = el !! k.
Proof.
  intros Hprop Hrep Hne Hkey. exists (<[key := x]> (delete prop el)).
  assert (Hcopy : is_Some (delete prop el !! key)).
  { rewrite lookup_delete_ne by done. eauto. }
  split; [|split; [|split]].
  - destruct Hrep as [-> | (f & -> & Hf & ->)].
    + rewrite (replacePropInElement_literal _ _ _ _ x Hprop). simpl.
      by rewrite assign_insert by (by right).
    + rewrite (replacePropInElement_function _ _ _ _ x Hprop Hf).
      by rewrite assign_insert by (by right).
  - apply lookup_insert_eq.
  - rewrite lookup_insert_ne by done. apply lookup_delete_eq.
  - intros k Hk1 Hk2. rewrite lookup_insert_ne by done.
    by apply lookup_delete_ne.
Qed.

Lemma replacePropInElement_rename_overwrites_witness :
  firstName_element !! "type" = Some (VPrim (VStr "FormText"))
  ∧ "label" ≠ "type"
  ∧ firstName_element !! "label" = Some (VPrim (VStr "First Name"))
  ∧ ∃ el',
      replacePropInElement development firstName_element "type"
        (DVal (VStr "label")) = (el', [])
      ∧ el' !! "label" = Some (VPrim (VStr "FormText"))
      ∧ el' !! "type" = None
      ∧ ∀ k, k ≠ "label" → k ≠ "type" → el' !! k = firstName_element !! k.
Proof.
  split; [reflexivity|]. split; [discriminate|]. split; [reflexivity|].
  apply (replacePropInElement_rename_overwrites development
           firstName_element "type" "label" (DVal (VStr "label"))
           (VPrim (VStr "FormText")) (VPrim (VStr "First Name")));
    [reflexivity | left; reflexivity | discriminate | reflexivity].
Defined.

(** ** The component mapper *)

Lemma mapComps_fn_falsy (mapComponents : gmap string value) (el : element) :
  ToBoolean (lookup_key mapComponents (get el "component")) = false →
  mapComps_fn mapComponents el = (el, []).
Proof. intros Hk. unfold mapComps_fn. by rewrite Hk. Qed.



(** A component tag that the table neither has nor inherits leaves the
    element as it is; with the empty table that is every tag that is
    not the name of a member of [Object.prototype]. *)
Lemma mapComps_fn_unlisted (mapComponents : gmap string value)
    (el : element) :
  has_property mapComponents (ToPropertyKey (get el "component")) = false →
  mapComps_fn mapComponents el = (el, []).
Proof.
  intros [Hown Hin]%has_property_false. apply mapComps_fn_falsy.
  unfold lookup_key. unfold get at 1. by rewrite Hown, Hin.
Qed.

(** An element without a [component] property is looked up under the
    name ["undefined"]. *)
Lemma mapComps_fn_no_component (mapComponents : gmap string value)
    (el : element) :
  el !! "component" = None →
  mapComponents !! "undefined" = None →
  mapComps_fn mapComponents el = (el, []).
Proof.
  intros Hel Hm. apply mapComps_fn_unlisted.
  assert (Hget : get el "component" = VPrim VUndefined).
  { unfold get. rewrite Hel. reflexivity. }
  rewrite Hget. unfold has_property. cbn [ToPropertyKey]. rewrite Hm.
  reflexivity.
Qed.

(** A component tag that names a member of [Object.prototype] and is
    not listed in the table is remapped to that member. *)
Lemma mapComps_fn_inherited (mapComponents : gmap string value)
    (el : element) (tag : string) (member : value) :
  el !! "component" = Some (VPrim (VStr tag)) →
  mapComponents !! tag = None →
  Object_prototype !! tag = Some member →
  ToBoolean member = true →
  mapComps_fn mapComponents el = (<["component" := member]> el, []).
Proof.
  intros Hel Hown Hin Ht. unfold mapComps_fn, lookup_key.
  rewrite (get_own _ _ _ Hel). simpl. unfold get. rewrite Hown, Hin. simpl.
  by rewrite Ht.
Qed.

Lemma mapComps_fn_mapped (mapComponents : gmap string value) (el : element)
    (tag : string) (target : value) :
  el !! "component" = Some (VPrim (VStr tag)) →
  mapComponents !! tag = Some target →
  ToBoolean target = true →
  mapComps_fn mapComponents el = (<["component" := target]> el, []).
Proof.
  intros Hel Hm Ht. unfold mapComps_fn, lookup_key.
  rewrite (get_own _ _ _ Hel). simpl. rewrite (get_own _ _ _ Hm).
  by rewrite Ht.
Qed.




Lemma mapComps_shape (s : schema) (mapComponents : gmap string value) :
  shape (mapComps s mapComponents).1 = shape s.
Proof. apply mapElementsInSchema_shape. Qed.

Lemma mapComps_silent (s : schema) (mapComponents : gmap string value) :
  (mapComps s mapComponents).2 = [].
Proof.
  unfold mapComps, mapElementsInSchema.
  assert (Hfn : ∀ el, (mapComps_fn mapComponents el).2 = []).
  { intros el. unfold mapComps_fn. by destruct (negb _). }
  assert (Hrow : ∀ r : row, (mapM (λ el, mapComps_fn mapComponents el) r).2 = []).
  { induction r as [|el r IH]; [done|]. cbn [mapM].
    rewrite !W_bind_unfold. cbn. by rewrite Hfn, IH. }
  induction s as [|r s IH]; [done|]. cbn [mapM].
  rewrite !W_bind_unfold. cbn. by rewrite Hrow, IH.
Qed.

(** ** The property mapper *)

(** The static loop ends with the walk of its last key over the input
    schema; the walks of the keys before it are dropped. *)
Lemma mapProperties_loop_last (proc : process) (s : schema) (entries : mapping)
    (prop : string) (replacement : directive) (schemaCopy : option schema) :
  (mapProperties_loop proc s (entries ++ [(prop, replacement)]) schemaCopy).1
  = Some (mapElementsInSchema s (λ el,
            replacePropInElement proc el prop replacement)).1.
Proof.
  revert schemaCopy. induction entries as [|[p r] entries IH]; intros acc.
  - simpl. by rewrite W_bind_unfold.
  - simpl. rewrite W_bind_unfold. simpl. apply IH.
Qed.

Lemma mapProperties_loop_shape (proc : process) (s : schema)
    (entries : mapping) (schemaCopy : option schema) (s' : schema) :
  (∀ a, schemaCopy = Some a → shape a = shape s) →
  (mapProperties_loop proc s entries schemaCopy).1 = Some s' →
  shape s' = shape s.
Proof.
  revert schemaCopy. induction entries as [|[p r] entries IH]; intros acc Hacc.
  - simpl. intros ->%Hacc. done.
  - simpl. rewrite W_bind_unfold. simpl. apply IH.
    intros a [= <-]. apply mapElementsInSchema_shape.
Qed.

(** Whenever [mapProperties] returns a schema, it has the shape of the
    input. *)
Lemma mapProperties_shape (proc : process) (s s' : schema)
    (mapProps : mapPropsArg) :
  (mapProperties proc s mapProps).1 = Some s' → shape s' = shape s.
Proof.
  unfold mapProperties. destruct (_ || _).
  - by intros [= ->].
  - destruct mapProps as [p|fn|entries]; simpl.
    + done.
    + intros [= <-]. apply mapElementsInSchema_shape.
    + apply mapProperties_loop_shape. done.
Qed.

(** A mapping with at least one key does make [mapProperties] return a
    schema. *)
Lemma mapProperties_nonempty_returns (proc : process) (s : schema)
    (entries : mapping) :
  entries ≠ [] → is_Some (mapProperties proc s (MPObj entries)).1.
Proof.
  intros Hne. destruct (exists_last Hne) as (init & [p r] & ->).
  unfold mapProperties. simpl. rewrite mapProperties_loop_last. by eexists.
Qed.

(** C3. With the empty static mapping the loop of [mapProperties] runs
    zero times and the function returns [undefined], not the input
    schema: [schemaCopy] is declared without an initial value. *)
Theorem mapProperties_empty_mapping_undefined (proc : process) (s : schema) :
  mapProperties proc s (MPObj []) = (None, [])
  ∧ mapProperties proc s (MPObj []) ≠ (Some s, []).
Proof. split; [reflexivity | discriminate]. Qed.

(** C4. With the empty static mapping [mapProperties] returns no schema
    at all, so there is no result with the row and element counts of
    the input. *)
Theorem mapProperties_empty_mapping_no_shape (proc : process) (s : schema) :
  ¬ ∃ s', (mapProperties proc s (MPObj [])).1 = Some s' ∧ shape s' = shape s.
Proof. intros (s' & Hs' & _). discriminate Hs'. Qed.

(** C2. On the row of the end-to-end scenario with the two keys [type]
    and [label], [mapProperties] returns the walk of the last key over
    the input: [label] is deleted and [type] is not renamed.  Applying
    the keys one after the other gives an element with [component]. *)
Theorem mapProperties_static_keeps_last_key_only :
  (mapProperties development [[firstName_element]]
     (MPObj scenario_mapProps)).1
  = Some [[ {[ "model" := VPrim (VStr "firstName");
               "type" := VPrim (VStr "FormText") ]} ]]
  ∧ (sequential_mapProperties development [[firstName_element]]
       scenario_mapProps).1
    = [[ {[ "model" := VPrim (VStr "firstName");
            "component" := VPrim (VStr "FormText") ]} ]].
Proof. split; vm_compute; reflexivity. Qed.

(** ** The pipeline *)

(** C1. On the end-to-end scenario the plugin yields the element
    [{model: "firstName", type: "FormText"}]: [label] is deleted, but
    [type] is neither renamed to [component] nor remapped, so the result
    is not [{model: "firstName", component: "BaseInput"}]. *)
Theorem LookupPlugin_scenario_output :
  LookupPlugin development scenario_configuration [[firstName_element]]
  = (Returned [[ {[ "model" := VPrim (VStr "firstName");
                    "type" := VPrim (VStr "FormText") ]} ]], [])
  ∧ (LookupPlugin development scenario_configuration [[firstName_element]]).1
    ≠ Returned [[ {[ "model" := VPrim (VStr "firstName");
                     "component" := VPrim (VStr "BaseInput") ]} ]].
Proof.
  split; [vm_compute; reflexivity|].
  intros H. vm_compute in H. discriminate H.
Qed.

(** With the empty static mapping the plugin stops with a [TypeError]. *)
Lemma LookupPlugin_empty_mapping_throws (proc : process) (s : schema)
    (mapComponents : option mapComponentsArg) :
  LookupPlugin proc
    {| cfg_mapComponents := mapComponents; cfg_mapProps := Some (MPObj []) |} s
  = (TypeError, []).
Proof. reflexivity. Qed.

(** * Properties of the store-level model *)

(** ** Inputs are never modified *)

Lemma unchanged_refl (σ : Heap.state) : Heap.unchanged σ σ.
Proof. by intros l o. Qed.

Lemma unchanged_trans (σ1 σ2 σ3 : Heap.state) :
  Heap.unchanged σ1 σ2 → Heap.unchanged σ2 σ3 → Heap.unchanged σ1 σ3.
Proof. intros H12 H23 l o Hl. by apply H23, H12. Qed.

Create HintDb frame.
#[local] Hint Resolve unchanged_refl : frame.

Lemma frame_ret {A} (a : A) : frame (mret a : Heap.ST A).
Proof. intros σ. apply unchanged_refl. Qed.

Lemma frame_throw {A} : frame (@Heap.throw A).
Proof. intros σ. apply unchanged_refl. Qed.

Lemma frame_bind {A B} (m : Heap.ST A) (k : A → Heap.ST B) :
  frame m → (∀ a, frame (k a)) → frame (m ≫= k).
Proof.
  intros Hm Hk σ. unfold mbind, Heap.ST_bind.
  specialize (Hm σ). destruct (m σ) as [[a|] σ']; simpl in *; [|done].
  eapply unchanged_trans; [exact Hm | apply Hk].
Qed.

Lemma fresh_not_allocated (h : gmap positive Heap.object) :
  h !! fresh (dom h) = None.
Proof. apply not_elem_of_dom, is_fresh. Qed.

Lemma frame_alloc (o : Heap.object) : frame (Heap.alloc o).
Proof.
  intros σ l o' Hl. simpl. rewrite lookup_insert_ne; [done|].
  intros <-. by rewrite fresh_not_allocated in Hl.
Qed.

Lemma frame_read_element (l : Heap.loc) : frame (Heap.read_element l).
Proof.
  intros σ. unfold Heap.read_element.
  destruct (Heap.heap σ !! l) as [[]|]; apply unchanged_refl.
Qed.

Lemma frame_read_array (l : Heap.loc) : frame (Heap.read_array l).
Proof.
  intros σ. unfold Heap.read_array.
  destruct (Heap.heap σ !! l) as [[]|]; apply unchanged_refl.
Qed.

Lemma frame_console_warn (prop : string) (el : Heap.loc) :
  frame (Heap.console_warn prop el).
Proof. by intros σ l o. Qed.

Lemma frame_mapM {A B} (fn : A → Heap.ST B) (l : list A) :
  (∀ a, frame (fn a)) → frame (mapM fn l).
Proof.
  intros Hfn. induction l as [|a l IH]; cbn [mapM].
  - apply frame_ret.
  - apply frame_bind; [apply Hfn|]. intros b.
    apply frame_bind; [apply IH|]. intros k. apply frame_ret.
Qed.

Lemma frame_array_map (arr : Heap.loc) (fn : Heap.loc → Heap.ST Heap.loc) :
  (∀ l, frame (fn l)) → frame (Heap.array_map arr fn).
Proof.
  intros Hfn. unfold Heap.array_map.
  apply frame_bind; [apply frame_read_array|]. intros items.
  apply frame_bind; [by apply frame_mapM|]. intros items'.
  apply frame_alloc.
Qed.

#[local] Hint Resolve frame_ret frame_throw frame_alloc frame_read_element
  frame_read_array frame_console_warn : frame.

Lemma frame_mapElementsInSchema (s : Heap.loc)
    (fn : Heap.loc → Heap.ST Heap.loc) :
  (∀ el, frame (fn el)) → frame (Heap.mapElementsInSchema s fn).
Proof.
  intros Hfn. apply frame_array_map. intros r. by apply frame_array_map.
Qed.

(** The copy made by the rewriter is a new object, so deleting from it
    and assigning to it leave the objects of the input alone. *)
Lemma frame_copy_delete_set (props : element) (prop : string)
    (rename : option (string * value)) :
  frame (elementCopy ← Heap.alloc (Heap.OElement props);
         Heap.delete_prop elementCopy prop ;;
         match rename with
         | None => mret elementCopy
         | Some (key, v) => Heap.set_prop elementCopy key v ;; mret elementCopy
         end).
Proof.
  intros σ l o Hl.
  assert (Hne : fresh (dom (Heap.heap σ)) ≠ l).
  { intros <-. by rewrite fresh_not_allocated in Hl. }
  unfold mbind, Heap.ST_bind, Heap.alloc, Heap.delete_prop, Heap.set_prop,
    Heap.read_element, Heap.store, mbind, Heap.ST_bind. simpl.
  rewrite lookup_insert_eq. simpl.
  destruct rename as [[key v]|]; simpl.
  - rewrite lookup_insert_eq. simpl. by rewrite !lookup_insert_ne.
  - by rewrite !lookup_insert_ne.
Qed.

Lemma frame_replacePropInElement (proc : process) (el : Heap.loc)
    (prop : string) (replacement : directive) :
  frame (Heap.replacePropInElement proc el prop replacement).
Proof.
  unfold Heap.replacePropInElement.
  apply frame_bind; [apply frame_read_element|]. intros props.
  assert (Hgo : ∀ v,
    frame (if negb (has_property props prop) then
             (if warnEnabled proc then Heap.console_warn prop el
              else mret tt) ;; mret el
           else
             elementCopy ← Heap.alloc (Heap.OElement props);
             Heap.delete_prop elementCopy prop ;;
             if is_false v then mret elementCopy
             else Heap.set_prop elementCopy (ToPropertyKey v)
                    (get props prop) ;; mret elementCopy)).
  { intros v. destruct (negb (has_property props prop)).
    - apply frame_bind; [destruct (warnEnabled proc)|]; auto with frame.
    - destruct (is_false v).
      + apply (frame_copy_delete_set props prop None).
      + apply (frame_copy_delete_set props prop
                 (Some (ToPropertyKey v, get props prop))). }
  destruct replacement as [v|f]; [apply Hgo|].
  destruct (negb (ToBoolean (f props))); [apply frame_ret | apply Hgo].
Qed.

Lemma frame_mapComps_fn (mapComponents : gmap string value) (el : Heap.loc) :
  frame (Heap.mapComps_fn mapComponents el).
Proof.
  unfold Heap.mapComps_fn.
  apply frame_bind; [apply frame_read_element|]. intros props.
  destruct (negb _); apply frame_alloc.
Qed.

Lemma frame_mapComps (s : Heap.loc) (mapComponents : gmap string value) :
  frame (Heap.mapComps s mapComponents).
Proof. apply frame_mapElementsInSchema, frame_mapComps_fn. Qed.

Lemma frame_mapPropsForElement (proc : process) (map : mapping)
    (el : Heap.loc) :
  frame (Heap.mapPropsForElement proc el map).
Proof.
  revert el. induction map as [|[prop r] map IH]; intros el; simpl.
  - apply frame_ret.
  - apply frame_bind; [apply frame_replacePropInElement | apply IH].
Qed.

Lemma frame_mapProperties_loop (proc : process) (s : Heap.loc)
    (entries : mapping) (schemaCopy : option Heap.loc) :
  frame (Heap.mapProperties_loop proc s entries schemaCopy).
Proof.
  revert schemaCopy. induction entries as [|[prop r] entries IH];
    intros acc; simpl.
  - apply frame_ret.
  - apply frame_bind; [|intros; apply IH].
    apply frame_mapElementsInSchema. intros el.
    apply frame_replacePropInElement.
Qed.

Lemma frame_mapProperties (proc : process) (s : Heap.loc)
    (mapProps : mapPropsArg) :
  frame (Heap.mapProperties proc s mapProps).
Proof.
  unfold Heap.mapProperties. destruct (_ || _); [apply frame_ret|].
  destruct mapProps as [p|fn|entries].
  - apply frame_mapProperties_loop.
  - apply frame_bind; [|intros; apply frame_ret].
    apply frame_mapElementsInSchema. intros el.
    apply frame_bind; [apply frame_read_element|]. intros props.
    apply frame_mapPropsForElement.
  - apply frame_mapProperties_loop.
Qed.

Lemma frame_LookupPlugin (proc : process) (cfg : configuration)
    (parsedSchema : Heap.loc) :
  frame (Heap.LookupPlugin proc cfg parsedSchema).
Proof.
  unfold Heap.LookupPlugin.
  apply frame_bind; [apply frame_mapProperties|]. intros [replaced|].
  - destruct (default (MCObj ∅) (cfg_mapComponents cfg)).
    + apply frame_mapComps.
    + apply frame_mapElementsInSchema. intros el. apply frame_throw.
  - apply frame_throw.
Qed.

(** *** What can be read from the store stays readable *)

Lemma unchanged_subseteq (σ σ' : Heap.state) :
  Heap.unchanged σ σ' ↔ Heap.heap σ ⊆ Heap.heap σ'.
Proof. unfold Heap.unchanged. by rewrite map_subseteq_spec. Qed.

Lemma element_at_monotone : monotone Heap.element_at.
Proof.
  intros h h' l a Hsub. unfold Heap.element_at.
  destruct (h !! l) as [o|] eqn:Hl; [|done].
  by rewrite (lookup_weaken _ _ _ _ Hl Hsub).
Qed.

Lemma array_at_monotone {A}
    (item_at : gmap positive Heap.object → Heap.loc → option A) :
  monotone item_at → monotone (Heap.array_at item_at).
Proof.
  intros Hmono h h' l a Hsub. unfold Heap.array_at.
  destruct (h !! l) as [o|] eqn:Hl; [|done].
  rewrite (lookup_weaken _ _ _ _ Hl Hsub).
  destruct o as [|items]; [done|].
  rewrite !mapM_Some. intros Hall. eapply Forall2_impl; [exact Hall|].
  intros x y. by apply Hmono.
Qed.

Lemma row_at_monotone : monotone Heap.row_at.
Proof. apply array_at_monotone, element_at_monotone. Qed.

Lemma schema_at_monotone : monotone Heap.schema_at.
Proof. apply array_at_monotone, row_at_monotone. Qed.

Lemma unchanged_intact (σ σ' : Heap.state) :
  Heap.unchanged σ σ' → Heap.intact σ σ'.
Proof.
  intros Hun. split; [done|]. intros s S.
  apply schema_at_monotone. by apply unchanged_subseteq.
Qed.

(** C8. No operation modifies its input.  Whatever the store [σ] and
    the arguments, after the schema walker (with a callback that itself
    leaves existing objects alone), the property rewriter,
    [mapProperties], [mapComps] or the whole pipeline has run, every
    location of [σ] holds the object it held before, and every schema
    readable from [σ] (rows and elements included) reads back as the
    same value: all updates went to objects allocated during the run. *)
Theorem operations_leave_input_intact
    (proc : process) (σ : Heap.state) (fn : Heap.loc → Heap.ST Heap.loc) :
  (∀ el σ1, Heap.unchanged σ1 (fn el σ1).2) →
  (∀ s, Heap.intact σ (Heap.mapElementsInSchema s fn σ).2)
  ∧ (∀ el prop replacement,
       Heap.intact σ (Heap.replacePropInElement proc el prop replacement σ).2)
  ∧ (∀ s mapProps, Heap.intact σ (Heap.mapProperties proc s mapProps σ).2)
  ∧ (∀ s mapComponents, Heap.intact σ (Heap.mapComps s mapComponents σ).2)
  ∧ (∀ cfg s, Heap.intact σ (Heap.LookupPlugin proc cfg s σ).2).
Proof.
  intros Hfn.
  split; [|split; [|split; [|split]]]; intros; apply unchanged_intact.
  - by apply frame_mapElementsInSchema.
  - apply frame_replacePropInElement.
  - apply frame_mapProperties.
  - apply frame_mapComps.
  - apply frame_LookupPlugin.
Qed.

Lemma operations_leave_input_intact_witness :
  (∀ (el : Heap.loc) σ1,
     Heap.unchanged σ1 ((mret el : Heap.ST Heap.loc) σ1).2)
  ∧ Heap.intact Heap.scenario_state
      (Heap.mapElementsInSchema 3%positive (λ el, mret el)
         Heap.scenario_state).2
  ∧ Heap.intact Heap.scenario_state
      (Heap.LookupPlugin development scenario_configuration 3%positive
         Heap.scenario_state).2.
Proof.
  assert (Hfn : ∀ (el : Heap.loc) σ1,
            Heap.unchanged σ1 ((mret el : Heap.ST Heap.loc) σ1).2).
  { intros el σ1 l o Hl. exact Hl. }
  split; [exact Hfn|].
  destruct (operations_leave_input_intact development Heap.scenario_state
              (λ el, mret el) Hfn) as (Hwalk & _ & _ & _ & Hplugin).
  split; [apply Hwalk | apply Hplugin].
Defined.

(** ** The store-level functions compute the value-level results *)

Section Refinement.
Context {A B : Type}.
Variable in_at : gmap positive Heap.object → Heap.loc → option A.
Variable out_at : gmap positive Heap.object → Heap.loc → option B.
Hypothesis in_mono : monotone in_at.
Hypothesis out_mono : monotone out_at.
Variable fn : Heap.loc → Heap.ST Heap.loc.
Variable f : A → B.
Hypothesis fn_f : refines in_at out_at fn f.

Lemma mapM_refines (items : list Heap.loc) (σ : Heap.state) (xs : list A) :
  mapM (in_at (Heap.heap σ)) items = Some xs →
  ∃ items' σ', mapM fn items σ = (Heap.Val items', σ')
               ∧ Heap.unchanged σ σ'
               ∧ mapM (out_at (Heap.heap σ')) items' = Some (f <$> xs).
Proof.
  revert σ xs. induction items as [|l items IH]; intros σ xs Hxs.
  - injection Hxs as <-. exists [], σ. split; [done|].
    split; [apply unchanged_refl | done].
  - apply mapM_Some in Hxs.
    destruct xs as [|a xs]; [by apply Forall2_cons_nil_inv in Hxs|].
    apply Forall2_cons_1 in Hxs as [Ha Hxs].
    destruct (fn_f σ l a Ha) as (l' & σ1 & Hrun & Hun1 & Hl').
    assert (Hxs1 : mapM (in_at (Heap.heap σ1)) items = Some xs).
    { apply mapM_Some. eapply Forall2_impl; [exact Hxs|].
      intros x y. apply in_mono. by apply unchanged_subseteq. }
    destruct (IH σ1 xs Hxs1) as (items' & σ2 & Hrun2 & Hun2 & Hitems').
    exists (l' :: items'), σ2. split; [|split].
    + cbn [mapM]. unfold mbind at 1, Heap.ST_bind at 1. rewrite Hrun.
      unfold mbind at 1, Heap.ST_bind at 1. by rewrite Hrun2.
    + by eapply unchanged_trans.
    + apply mapM_Some. simpl. constructor; [|by apply mapM_Some].
      eapply out_mono; [|exact Hl']. by apply unchanged_subseteq.
Qed.

Lemma array_map_refines :
  refines (Heap.array_at in_at) (Heap.array_at out_at)
    (λ arr, Heap.array_map arr fn) (fmap f).
Proof.
  intros σ arr xs Harr. unfold Heap.array_at in Harr.
  destruct (Heap.heap σ !! arr) as [[|items]|] eqn:Hl; try done.
  destruct (mapM_refines items σ xs Harr) as (items' & σ1 & Hrun & Hun & Hit).
  eexists _, _. split; [|split].
  - unfold Heap.array_map, Heap.read_array.
    unfold mbind at 1, Heap.ST_bind at 1. rewrite Hl.
    unfold mbind at 1, Heap.ST_bind at 1. rewrite Hrun. reflexivity.
  - eapply unchanged_trans; [exact Hun|]. apply frame_alloc.
  - simpl. unfold Heap.array_at. rewrite lookup_insert_eq.
    apply mapM_Some. apply mapM_Some in Hit.
    eapply Forall2_impl; [exact Hit|]. intros x y. apply out_mono.
    apply insert_subseteq, fresh_not_allocated.
Qed.
End Refinement.

Lemma mapElementsInSchema_refines (fn : Heap.loc → Heap.ST Heap.loc)
    (f : element → element) :
  refines Heap.element_at Heap.element_at fn f →
  refines Heap.schema_at Heap.schema_at
    (λ s, Heap.mapElementsInSchema s fn) (λ S : schema, (fmap f : row → row) <$> S).
Proof.
  intros Hfn. unfold Heap.mapElementsInSchema.
  apply (array_map_refines Heap.row_at Heap.row_at);
    [apply row_at_monotone..|].
  apply (array_map_refines Heap.element_at Heap.element_at);
    [apply element_at_monotone.. | exact Hfn].
Qed.

Lemma element_at_Some (h : gmap positive Heap.object) (l : Heap.loc)
    (props : element) :
  Heap.element_at h l = Some props ↔ h !! l = Some (Heap.OElement props).
Proof.
  unfold Heap.element_at. destruct (h !! l) as [[]|]; naive_solver.
Qed.

Lemma read_element_at (σ : Heap.state) (l : Heap.loc) (props : element) :
  Heap.element_at (Heap.heap σ) l = Some props →
  Heap.read_element l σ = (Heap.Val props, σ).
Proof.
  intros Hl%element_at_Some. unfold Heap.read_element. by rewrite Hl.
Qed.

Lemma refines_compose {A B C}
    (a_at : gmap positive Heap.object → Heap.loc → option A)
    (b_at : gmap positive Heap.object → Heap.loc → option B)
    (c_at : gmap positive Heap.object → Heap.loc → option C)
    (fn1 fn2 : Heap.loc → Heap.ST Heap.loc) (f1 : A → B) (f2 : B → C) :
  refines a_at b_at fn1 f1 → refines b_at c_at fn2 f2 →
  refines a_at c_at (λ l, fn1 l ≫= fn2) (λ a, f2 (f1 a)).
Proof.
  intros H1 H2 σ l a Ha.
  destruct (H1 σ l a Ha) as (l1 & σ1 & Hrun1 & Hun1 & Hl1).
  destruct (H2 σ1 l1 _ Hl1) as (l2 & σ2 & Hrun2 & Hun2 & Hl2).
  exists l2, σ2. split; [|split].
  - unfold mbind, Heap.ST_bind. by rewrite Hrun1.
  - by eapply unchanged_trans.
  - done.
Qed.

Lemma mapComps_fn_refines (mapComponents : gmap string value) :
  refines Heap.element_at Heap.element_at
    (Heap.mapComps_fn mapComponents)
    (λ el, (mapComps_fn mapComponents el).1).
Proof.
  intros σ l props Hl. unfold Heap.mapComps_fn, mapComps_fn.
  unfold mbind, Heap.ST_bind. rewrite (read_element_at _ _ _ Hl).
  destruct (negb _); eexists _, _;
    (split; [reflexivity|]; split; [apply frame_alloc|]);
    simpl; unfold Heap.element_at; by rewrite lookup_insert_eq.
Qed.

Lemma replacePropInElement_refines (proc : process) (prop : string)
    (replacement : directive) :
  refines Heap.element_at Heap.element_at
    (λ el, Heap.replacePropInElement proc el prop replacement)
    (λ el, (replacePropInElement proc el prop replacement).1).
Proof.
  intros σ l props Hl.
  pose proof (frame_replacePropInElement proc l prop replacement σ) as Hun.
  destruct (Heap.replacePropInElement proc l prop replacement σ)
    as [r σ'] eqn:Hrun.
  simpl in Hun.
  cut (∃ l', r = Heap.Val l'
             ∧ Heap.element_at (Heap.heap σ') l'
               = Some (replacePropInElement proc props prop replacement).1).
  { intros (l' & -> & Hl'). by exists l', σ'. }
  clear Hun. revert Hrun.
  unfold Heap.replacePropInElement, replacePropInElement.
  unfold mbind at 1, Heap.ST_bind at 1. rewrite (read_element_at _ _ _ Hl).
  assert (Hgo : ∀ v,
    (if negb (has_property props prop) then
       (if warnEnabled proc then Heap.console_warn prop l else mret tt) ;;
       mret l
     else
       elementCopy ← Heap.alloc (Heap.OElement props);
       Heap.delete_prop elementCopy prop ;;
       if is_false v then mret elementCopy
       else Heap.set_prop elementCopy (ToPropertyKey v) (get props prop) ;;
            mret elementCopy) σ = (r, σ') →
    ∃ l', r = Heap.Val l'
      ∧ Heap.element_at (Heap.heap σ') l'
        = Some ((if negb (has_property props prop) then
                   (if warnEnabled proc then warn prop props else mret tt) ;;
                   mret props
                 else
                   if is_false v then mret (delete prop props)
                   else mret (assign (delete prop props) (ToPropertyKey v)
                                (get props prop))) : W element).1).
  { intros v. destruct (negb (has_property props prop)).
    - destruct (warnEnabled proc); run_store; intros [= <- <-];
        eexists; (split; [reflexivity|]); exact Hl.
    - destruct (is_false v); run_store; intros [= <- <-];
        eexists; (split; [reflexivity|]); simpl;
        unfold Heap.element_at; by rewrite lookup_insert_eq. }
  destruct replacement as [v|f]; [apply Hgo|].
  destruct (negb (ToBoolean (f props))); [|apply Hgo].
  intros [= <- <-]. by exists l.
Qed.

Lemma mapPropsForElement_refines (proc : process) (map : mapping) :
  refines Heap.element_at Heap.element_at
    (λ el, Heap.mapPropsForElement proc el map)
    (λ el, (mapPropsForElement proc el map).1).
Proof.
  induction map as [|[prop r] map IH].
  - intros σ l props Hl. exists l, σ. split; [done|].
    split; [apply unchanged_refl | done].
  - intros σ l props Hl.
    destruct (refines_compose _ _ _ _ _ _ _
                (replacePropInElement_refines proc prop r) IH σ l props Hl)
      as (l' & σ' & Hrun & Hun & Hl').
    exists l', σ'. split; [exact Hrun|]. split; [exact Hun|].
    rewrite Hl'. simpl. by rewrite W_bind_unfold.
Qed.

Lemma mapPropertiesWithUserFunction_refines (proc : process)
    (fn : element → mapping) :
  refines Heap.schema_at Heap.schema_at
    (λ s, Heap.mapPropertiesWithUserFunction proc s fn)
    (λ S, (mapPropertiesWithUserFunction proc S fn).1).
Proof.
  intros σ s S HS.
  destruct (mapElementsInSchema_refines
              (λ el, props ← Heap.read_element el;
                     Heap.mapPropsForElement proc el (fn props))
              (λ el, (mapPropsForElement proc el (fn el)).1)) with σ s S
    as (s' & σ' & Hrun & Hun & Hs'); [|exact HS|].
  - intros σ1 l props Hl.
    destruct (mapPropsForElement_refines proc (fn props) σ1 l props Hl)
      as (l' & σ2 & Hrun & Hun & Hl').
    exists l', σ2. split; [|done].
    unfold mbind, Heap.ST_bind. by rewrite (read_element_at _ _ _ Hl).
  - exists s', σ'. split; [exact Hrun|]. split; [exact Hun|].
    rewrite Hs'. unfold mapPropertiesWithUserFunction.
    by rewrite mapElementsInSchema_fst.
Qed.

Lemma mapComps_refines (mapComponents : gmap string value) :
  refines Heap.schema_at Heap.schema_at
    (λ s, Heap.mapComps s mapComponents)
    (λ S, (mapComps S mapComponents).1).
Proof.
  intros σ s S HS.
  destruct (mapElementsInSchema_refines _ _
              (mapComps_fn_refines mapComponents) σ s S HS)
    as (s' & σ' & Hrun & Hun & Hs').
  exists s', σ'. split; [exact Hrun|]. split; [exact Hun|].
  rewrite Hs'. unfold mapComps. by rewrite mapElementsInSchema_fst.
Qed.

Lemma mapProperties_loop_refines (proc : process) (s : Heap.loc) (S : schema)
    (entries : mapping) (σ : Heap.state)
    (schemaCopy : option Heap.loc) (SchemaCopy : option schema) :
  Heap.schema_at (Heap.heap σ) s = Some S →
  reads_as (Heap.heap σ) schemaCopy SchemaCopy →
  ∃ r σ',
    Heap.mapProperties_loop proc s entries schemaCopy σ = (Heap.Val r, σ')
    ∧ Heap.unchanged σ σ'
    ∧ reads_as (Heap.heap σ') r
        (mapProperties_loop proc S entries SchemaCopy).1.
Proof.
  revert σ schemaCopy SchemaCopy.
  induction entries as [|[prop repl] entries IH]; intros σ acc Acc HS Hacc.
  - exists acc, σ. split; [done|]. split; [apply unchanged_refl | done].
  - destruct (mapElementsInSchema_refines _ _
                (replacePropInElement_refines proc prop repl) σ s S HS)
      as (s1 & σ1 & Hrun1 & Hun1 & Hs1).
    destruct (IH σ1 (Some s1)
                (Some (mapElementsInSchema S (λ el,
                         replacePropInElement proc el prop repl)).1))
      as (r & σ2 & Hrun2 & Hun2 & Hr).
    { eapply schema_at_monotone; [|exact HS]. by apply unchanged_subseteq. }
    { simpl. rewrite Hs1. by rewrite mapElementsInSchema_fst. }
    exists r, σ2. split; [|split].
    + simpl. unfold mbind at 1, Heap.ST_bind at 1. by rewrite Hrun1.
    + by eapply unchanged_trans.
    + simpl. by rewrite W_bind_unfold.
Qed.

Lemma mapProperties_refines (proc : process) (s : Heap.loc) (S : schema)
    (mapProps : mapPropsArg) (σ : Heap.state) :
  Heap.schema_at (Heap.heap σ) s = Some S →
  ∃ r σ',
    Heap.mapProperties proc s mapProps σ = (Heap.Val r, σ')
    ∧ Heap.unchanged σ σ'
    ∧ reads_as (Heap.heap σ') r (mapProperties proc S mapProps).1.
Proof.
  intros HS. unfold Heap.mapProperties, mapProperties.
  destruct (_ || _).
  { exists (Some s), σ. split; [done|]. split; [apply unchanged_refl | done]. }
  destruct mapProps as [p|fn|entries];
    try (by apply mapProperties_loop_refines).
  destruct (mapPropertiesWithUserFunction_refines proc fn σ s S HS)
    as (s' & σ' & Hrun & Hun & Hs').
  exists (Some s'), σ'. split; [|done].
  unfold mbind, Heap.ST_bind. by rewrite Hrun.
Qed.

Lemma run_bind {A B} (m : Heap.ST A) (k : A → Heap.ST B) (σ : Heap.state) :
  (m ≫= k) σ = match m σ with
               | (Heap.Val a, σ') => k a σ'
               | (Heap.Throw, σ') => (Heap.Throw, σ')
               end.
Proof. reflexivity. Qed.

Lemma throwing_row (σ : Heap.state) (r : Heap.loc) (R : row) :
  Heap.row_at (Heap.heap σ) r = Some R →
  match R with
  | [] => ∃ σ', Heap.array_map r (λ _, Heap.throw) σ
                = (Heap.Val (fresh (dom (Heap.heap σ))), σ')
                ∧ Heap.unchanged σ σ'
                ∧ Heap.row_at (Heap.heap σ') (fresh (dom (Heap.heap σ)))
                  = Some []
  | _ :: _ => Heap.array_map r (λ _, Heap.throw) σ = (Heap.Throw, σ)
  end.
Proof.
  unfold Heap.row_at, Heap.array_at. intros HR.
  destruct (Heap.heap σ !! r) as [[|items]|] eqn:Hr; try done.
  apply mapM_Some in HR. unfold Heap.array_map, Heap.read_array.
  destruct HR as [|i e items R Hi HR].
  - unfold mbind, Heap.ST_bind. rewrite Hr. simpl.
    eexists. split; [reflexivity|]. split.
    + apply (frame_alloc (Heap.OArray []) σ).
    + simpl. by rewrite lookup_insert_eq.
  - unfold mbind at 1, Heap.ST_bind at 1. rewrite Hr. reflexivity.
Qed.

Lemma mapComps_null_refines (s : Heap.loc) (S0 : schema) (σ : Heap.state) :
  Heap.schema_at (Heap.heap σ) s = Some S0 →
  ∃ r σ', Heap.mapComps_null s σ = (r, σ')
          ∧ ends_as (Heap.heap σ') r (mapComps_null S0).
Proof.
  unfold Heap.schema_at at 1, Heap.array_at. intros HS.
  destruct (Heap.heap σ !! s) as [[|rows]|] eqn:Hs; try done.
  unfold Heap.mapComps_null, Heap.mapElementsInSchema, Heap.array_map at 1.
  unfold Heap.read_array. unfold mbind at 1, Heap.ST_bind at 1. rewrite Hs.
  unfold mapComps_null, no_elements.
  set (empty := λ r : row, match r with [] => true | _ :: _ => false end).
  set (fn := λ r : Heap.loc, Heap.array_map r (λ _, Heap.throw)).
  assert (Hrows : ∀ rows S1 σ1,
    mapM (Heap.row_at (Heap.heap σ1)) rows = Some S1 →
    if forallb empty S1
    then ∃ rows' σ2, mapM fn rows σ1 = (Heap.Val rows', σ2)
                     ∧ Heap.unchanged σ1 σ2
                     ∧ mapM (Heap.row_at (Heap.heap σ2)) rows' = Some S1
    else ∃ σ2, mapM fn rows σ1 = (Heap.Throw, σ2)).
  { clear. intros rows. induction rows as [|r rows IH]; intros S1 σ1 HS1.
    - injection HS1 as <-. simpl. exists [], σ1.
      split; [done|]. split; [apply unchanged_refl | done].
    - apply mapM_Some in HS1.
      destruct S1 as [|R S1]; [by apply Forall2_cons_nil_inv in HS1|].
      apply Forall2_cons_1 in HS1 as [HR HS1].
      pose proof (throwing_row σ1 r R HR) as Hrow.
      destruct R as [|e R].
      + destruct Hrow as (σ2 & Hrun & Hun & Hnew).
        assert (Hstep : mapM fn (r :: rows) σ1
                        = match mapM fn rows σ2 with
                          | (Heap.Val k, σ') =>
                              (Heap.Val (fresh (dom (Heap.heap σ1)) :: k), σ')
                          | (Heap.Throw, σ') => (Heap.Throw, σ')
                          end).
        { cbn [mapM]. rewrite run_bind. unfold fn at 1. rewrite Hrun.
          rewrite run_bind. by destruct (mapM fn rows σ2) as [[k|] σ']. }
        rewrite Hstep. clear Hstep.
        assert (HS2 : mapM (Heap.row_at (Heap.heap σ2)) rows = Some S1).
        { apply mapM_Some. eapply Forall2_impl; [exact HS1|].
          intros x y. apply row_at_monotone. by apply unchanged_subseteq. }
        specialize (IH S1 σ2 HS2). cbn [forallb empty andb].
        destruct (forallb empty S1).
        * destruct IH as (rows' & σ3 & Hrun3 & Hun3 & Hrows').
          rewrite Hrun3. eexists _, σ3. split; [reflexivity|].
          split; [by eapply unchanged_trans|].
          apply mapM_Some. constructor; [|by apply mapM_Some].
          eapply row_at_monotone; [|exact Hnew]. by apply unchanged_subseteq.
        * destruct IH as (σ3 & Hrun3). rewrite Hrun3. by eexists.
      + cbn [forallb empty andb]. exists σ1.
        cbn [mapM]. rewrite run_bind. unfold fn at 1. by rewrite Hrow. }
  specialize (Hrows rows S0 σ HS). fold fn.
  destruct (forallb empty S0).
  - destruct Hrows as (rows' & σ2 & Hrun & Hun & Hrows').
    rewrite run_bind, Hrun.
    eexists _, _. split; [reflexivity|]. simpl.
    unfold Heap.schema_at, Heap.array_at. rewrite lookup_insert_eq.
    apply mapM_Some. apply mapM_Some in Hrows'.
    eapply Forall2_impl; [exact Hrows'|]. intros x y. apply row_at_monotone.
    apply insert_subseteq, fresh_not_allocated.
  - destruct Hrows as (σ2 & Hrun).
    rewrite run_bind, Hrun. by eexists _, _.
Qed.

(** Run on a store that holds the schema [S] at [s], the pipeline ends
    as the value-level pipeline does on [S]: with a [TypeError], or with
    a location that reads as the schema returned. *)
Lemma LookupPlugin_refines (proc : process) (cfg : configuration)
    (s : Heap.loc) (S : schema) (σ : Heap.state) :
  Heap.schema_at (Heap.heap σ) s = Some S →
  ∃ r σ',
    Heap.LookupPlugin proc cfg s σ = (r, σ')
    ∧ match r, (LookupPlugin proc cfg S).1 with
      | Heap.Val l, Returned out => Heap.schema_at (Heap.heap σ') l = Some out
      | Heap.Throw, TypeError => True
      | _, _ => False
      end.
Proof.
  intros HS. unfold Heap.LookupPlugin, LookupPlugin.
  destruct (mapProperties_refines proc s S
              (default (MPPrim VNull) (cfg_mapProps cfg)) σ HS)
    as (r & σ1 & Hrun1 & Hun1 & Hr).
  unfold mbind at 1, Heap.ST_bind at 1. rewrite Hrun1.
  rewrite W_bind_unfold. unfold reads_as in Hr.
  destruct r as [s1|],
    (mapProperties proc S (default (MPPrim VNull) (cfg_mapProps cfg))).1
    as [S1|]; try done.
  - destruct (default (MCObj ∅) (cfg_mapComponents cfg)) as [table|].
    + destruct (mapComps_refines table σ1 s1 S1 Hr)
        as (s2 & σ2 & Hrun2 & Hun2 & Hs2).
      exists (Heap.Val s2), σ2. split; [exact Hrun2 | exact Hs2].
    + exact (mapComps_null_refines s1 S1 σ1 Hr).
  - by exists Heap.Throw, σ1.
Qed.

Example LookupPlugin_scenario_in_store :
  match Heap.LookupPlugin development scenario_configuration 3%positive
          Heap.scenario_state with
  | (Heap.Val l, σ') =>
      Heap.schema_at (Heap.heap σ') l
      = Some [[ {[ "model" := VPrim (VStr "firstName");
                   "type" := VPrim (VStr "FormText") ]} ]]
      ∧ Heap.schema_at (Heap.heap σ') 3%positive = Some [[firstName_element]]
  | _ => False
  end.
Proof. vm_compute. split; reflexivity. Qed.


(** * Further properties of the value-level model *)

(** ** Writer facts *)

Lemma W_bind_ret {A} (m : W A) : m ≫= mret = m.
Proof.
  rewrite W_bind_unfold. destruct m as [a l]. simpl. by rewrite app_nil_r.
Qed.

Lemma mapM_W_snd {A B} (f : A → W B) (l : list A) :
  (mapM f l).2 = concat ((λ x, (f x).2) <$> l).
Proof.
  induction l as [|x l IH]; [done|].
  cbn [mapM]. rewrite !W_bind_unfold. cbn. by rewrite IH, app_nil_r.
Qed.

Lemma mapElementsInSchema_snd (s : schema) (fn : element → W element) :
  (mapElementsInSchema s fn).2
  = concat ((λ r : row, concat ((λ el, (fn el).2) <$> r)) <$> s).
Proof.
  unfold mapElementsInSchema. rewrite mapM_W_snd. f_equal.
  apply list_fmap_ext. intros _ r _. apply mapM_W_snd.
Qed.

(** A property of console entries that holds of everything one walk
    writes as soon as it holds of everything the callback writes. *)
Lemma mapElementsInSchema_log_Forall (P : consoleWarn → Prop) (s : schema)
    (fn : element → W element) :
  (∀ el, Forall P (fn el).2) → Forall P (mapElementsInSchema s fn).2.
Proof.
  intros Hfn. rewrite mapElementsInSchema_snd.
  apply Forall_concat, Forall_fmap, Forall_true. intros r. simpl.
  apply Forall_concat, Forall_fmap, Forall_true. intros el. apply Hfn.
Qed.

(** ** The schema walker *)

(** X1. The walker keeps the number of rows and the length of every
    row, and the element at every position of the result is the
    callback's result on the element at that position of the input. *)
Theorem mapElementsInSchema_pointwise (s : schema)
    (fn : element → W element) :
  shape (mapElementsInSchema s fn).1 = shape s
  ∧ ∀ i j, elementAt (mapElementsInSchema s fn).1 i j
           = (λ el, (fn el).1) <$> elementAt s i j.
Proof.
  split; [apply mapElementsInSchema_shape|].
  intros i j. apply mapElementsInSchema_elementAt.
Qed.

(** X2. Two walks in a row give the schema of one walk with the two
    callbacks composed. *)
Theorem mapElementsInSchema_compose (s : schema)
    (f g : element → W element) :
  (mapElementsInSchema (mapElementsInSchema s f).1 g).1
  = (mapElementsInSchema s (λ el, g (f el).1)).1.
Proof.
  rewrite !mapElementsInSchema_fst, <- list_fmap_compose.
  apply list_fmap_ext. intros _ r _. simpl. by rewrite <- list_fmap_compose.
Qed.

(** ** The component mapper *)

(** X3. An element whose [component] is a string listed in the table
    with a truthy target comes out with [component] set to the target,
    at the same position, and is otherwise the input element. *)
Theorem mapComps_remaps_listed_component
    (mapComponents : gmap string value) (s : schema) (i j : nat)
    (el : element) (tag : string) (target : value) :
  elementAt s i j = Some el →
  el !! "component" = Some (VPrim (VStr tag)) →
  mapComponents !! tag = Some target →
  ToBoolean target = true →
  elementAt (mapComps s mapComponents).1 i j
  = Some (<["component" := target]> el).
Proof.
  intros Hel Hc Ht Htrue. unfold mapComps.
  rewrite mapElementsInSchema_elementAt, Hel. simpl.
  by rewrite (mapComps_fn_mapped _ _ tag target).
Qed.

Lemma mapComps_remaps_listed_component_witness :
  elementAt [[formText_component]] 0 0 = Some formText_component
  ∧ formText_component !! "component" = Some (VPrim (VStr "FormText"))
  ∧ ({[ "FormText" := VPrim (VStr "BaseInput") ]} : gmap string value)
      !! "FormText" = Some (VPrim (VStr "BaseInput"))
  ∧ ToBoolean (VPrim (VStr "BaseInput")) = true
  ∧ elementAt
      (mapComps [[formText_component]]
         {[ "FormText" := VPrim (VStr "BaseInput") ]}).1 0 0
    = Some (<["component" := VPrim (VStr "BaseInput")]> formText_component).
Proof.
  split; [reflexivity|]. split; [reflexivity|]. split; [reflexivity|].
  split; [reflexivity|].
  apply (mapComps_remaps_listed_component
           {[ "FormText" := VPrim (VStr "BaseInput") ]}
           [[formText_component]] 0 0 formText_component "FormText"
           (VPrim (VStr "BaseInput"))); reflexivity.
Defined.

(** X4. An element without a [component] property is looked up under
    the name ["undefined"]: when the table has a truthy entry of that
    name, the element is given that entry as its [component]. *)
Theorem mapComps_component_less_uses_undefined_key
    (mapComponents : gmap string value) (s : schema) (i j : nat)
    (el : element) (target : value) :
  elementAt s i j = Some el →
  el !! "component" = None →
  mapComponents !! "undefined" = Some target →
  ToBoolean target = true →
  elementAt (mapComps s mapComponents).1 i j
  = Some (<["component" := target]> el).
Proof.
  intros Hel Hc Ht Htrue. unfold mapComps.
  rewrite mapElementsInSchema_elementAt, Hel. cbn -[mapComps_fn]. f_equal.
  assert (Hget : get el "component" = VPrim VUndefined).
  { unfold get. rewrite Hc. reflexivity. }
  unfold mapComps_fn, lookup_key. rewrite Hget. cbn [ToPropertyKey].
  rewrite (get_own _ _ _ Ht). by rewrite Htrue.
Qed.

Lemma mapComps_component_less_uses_undefined_key_witness :
  elementAt [[firstName_element]] 0 0 = Some firstName_element
  ∧ firstName_element !! "component" = None
  ∧ ({[ "undefined" := VPrim (VStr "Fallback") ]} : gmap string value)
      !! "undefined" = Some (VPrim (VStr "Fallback"))
  ∧ ToBoolean (VPrim (VStr "Fallback")) = true
  ∧ elementAt
      (mapComps [[firstName_element]]
         {[ "undefined" := VPrim (VStr "Fallback") ]}).1 0 0
    = Some (<["component" := VPrim (VStr "Fallback")]> firstName_element).
Proof.
  split; [reflexivity|]. split; [reflexivity|]. split; [reflexivity|].
  split; [reflexivity|].
  apply (mapComps_component_less_uses_undefined_key
           {[ "undefined" := VPrim (VStr "Fallback") ]}
           [[firstName_element]] 0 0 firstName_element
           (VPrim (VStr "Fallback"))); reflexivity.
Defined.

Lemma mapComps_fn_other_keys (mapComponents : gmap string value)
    (el : element) (k : string) :
  k ≠ "component" → (mapComps_fn mapComponents el).1 !! k = el !! k.
Proof.
  intros Hk. unfold mapComps_fn. destruct (negb _); simpl; [done|].
  by rewrite lookup_insert_ne.
Qed.

(** X5. [mapComps] touches nothing but [component]: the element at a
    position of the result agrees with the element at that position of
    the input on every other property name. *)
Theorem mapComps_touches_only_component
    (mapComponents : gmap string value) (s : schema) (i j : nat)
    (el : element) :
  elementAt s i j = Some el →
  ∃ el', elementAt (mapComps s mapComponents).1 i j = Some el'
         ∧ ∀ k, k ≠ "component" → el' !! k = el !! k.
Proof.
  intros Hel. exists (mapComps_fn mapComponents el).1. split.
  - unfold mapComps. by rewrite mapElementsInSchema_elementAt, Hel.
  - intros k. apply mapComps_fn_other_keys.
Qed.

Lemma mapComps_touches_only_component_witness :
  elementAt [[formText_component]] 0 0 = Some formText_component
  ∧ ∃ el',
      elementAt
        (mapComps [[formText_component]]
           {[ "FormText" := VPrim (VStr "BaseInput") ]}).1 0 0 = Some el'
      ∧ ∀ k, k ≠ "component" → el' !! k = formText_component !! k.
Proof.
  split; [reflexivity|].
  apply (mapComps_touches_only_component
           {[ "FormText" := VPrim (VStr "BaseInput") ]}
           [[formText_component]] 0 0 formText_component).
  reflexivity.
Defined.

(** X6. [mapComps] keeps the row and element counts of its input and
    writes nothing to the console, whatever the table. *)
Theorem mapComps_shape_and_silence (s : schema)
    (mapComponents : gmap string value) :
  shape (mapComps s mapComponents).1 = shape s
  ∧ (mapComps s mapComponents).2 = [].
Proof. split; [apply mapComps_shape | apply mapComps_silent]. Qed.

(** ** The property rewriter *)


(** After the directive [false], the property is absent, whether or not
    the element had it. *)
Lemma replacePropInElement_false_absent (proc : process) (el : element)
    (prop : string) :
  (replacePropInElement proc el prop (DVal (VBool false))).1 !! prop = None.
Proof.
  unfold replacePropInElement.
  destruct (has_property el prop) eqn:Hhas; simpl.
  - apply lookup_delete_eq.
  - apply has_property_false in Hhas as [Hown _].
    by destruct (warnEnabled proc).
Qed.

(** Every console entry of the rewriter names a property that the
    reported element lacks. *)
Lemma replacePropInElement_log_sound (proc : process) (el : element)
    (prop : string) (replacement : directive) :
  Forall (λ w, warn_el w !! warn_prop w = None)
    (replacePropInElement proc el prop replacement).2.
Proof.
  unfold replacePropInElement.
  assert (Hgo : ∀ v,
    Forall (λ w, warn_el w !! warn_prop w = None)
      ((if negb (has_property el prop) then
          (if warnEnabled proc then warn prop el else mret tt) ;; mret el
        else
          if is_false v then mret (delete prop el)
          else mret (assign (delete prop el) (ToPropertyKey v)
                       (get el prop))) : W element).2).
  { intros v. destruct (has_property el prop) eqn:Hhas; simpl.
    - destruct (is_false v); constructor.
    - apply has_property_false in Hhas as [Hown _].
      destruct (warnEnabled proc); repeat constructor. exact Hown. }
  destruct replacement as [v|f]; [apply Hgo|].
  destruct (negb (ToBoolean (f el))); [constructor | apply Hgo].
Qed.

(** The rewriter is silent when warnings are off. *)
Lemma replacePropInElement_log_off (proc : process) (el : element)
    (prop : string) (replacement : directive) :
  warnEnabled proc = false →
  (replacePropInElement proc el prop replacement).2 = [].
Proof.
  intros Hoff. unfold replacePropInElement. rewrite Hoff.
  destruct replacement as [v|f].
  - destruct (negb (has_property el prop)); [done|]. by destruct (is_false v).
  - destruct (negb (ToBoolean (f el))); [done|].
    destruct (negb (has_property el prop)); [done|].
    by destruct (is_false (f el)).
Qed.

(** X7. Renaming a property of the element to its own name, when that
    name is not [__proto__], returns the element as it was and writes
    nothing to the console. *)
Theorem replacePropInElement_rename_to_itself
    (proc : process) (el : element) (prop : string) (x : value) :
  el !! prop = Some x →
  prop ≠ "__proto__" →
  replacePropInElement proc el prop (DVal (VStr prop)) = (el, []).
Proof.
  intros Hprop Hne. rewrite (replacePropInElement_literal _ _ _ _ x Hprop).
  simpl. rewrite assign_insert by (by left).
  by rewrite insert_delete_eq, insert_id.
Qed.

Lemma replacePropInElement_rename_to_itself_witness :
  firstName_element !! "label" = Some (VPrim (VStr "First Name"))
  ∧ "label" ≠ "__proto__"
  ∧ replacePropInElement development firstName_element "label"
      (DVal (VStr "label")) = (firstName_element, []).
Proof.
  split; [reflexivity|]. split; [discriminate|].
  apply (replacePropInElement_rename_to_itself development
           firstName_element "label" (VPrim (VStr "First Name")));
    [reflexivity | discriminate].
Defined.

(** Renamed to itself, an own [__proto__] is lost: after the copy and
    the [delete], the assignment reaches the setter of
    [Object.prototype] and adds no property. *)
Lemma replacePropInElement_rename_proto_to_itself
    (proc : process) (el : element) (x : value) :
  el !! "__proto__" = Some x →
  replacePropInElement proc el "__proto__" (DVal (VStr "__proto__"))
  = (delete "__proto__" el, []).
Proof.
  intros Hprop. rewrite (replacePropInElement_literal _ _ _ _ x Hprop).
  simpl. unfold assign. rewrite lookup_delete_eq.
  rewrite bool_decide_eq_true_2 by done.
  by rewrite (bool_decide_eq_false_2 (is_Some None)) by (by intros [? ?]).
Qed.

(** X8. A directive that is a value other than the literal [false], and
    that does not convert to the name [__proto__], renames: the value
    of the property moves to the name the directive converts to, every
    name other than the old and the new one reads as before, and the
    console is untouched.  This holds of the falsy values [null],
    [undefined], [0] and the empty string as well, which rename to
    ["null"], ["undefined"], ["0"] and [""]: given as a value, they
    neither skip nor delete. *)
Theorem replacePropInElement_literal_renames
    (proc : process) (el : element) (prop : string) (v x : value) :
  el !! prop = Some x →
  v ≠ VPrim (VBool false) →
  ToPropertyKey v ≠ "__proto__" →
  ∃ el',
    replacePropInElement proc el prop (DVal v) = (el', [])
    ∧ el' !! ToPropertyKey v = Some x
    ∧ (ToPropertyKey v ≠ prop → el' !! prop = None)
    ∧ ∀ k, k ≠ ToPropertyKey v → k ≠ prop → el' !! k = el !! k.
Proof.
  intros Hprop Hv Hkey. exists (<[ToPropertyKey v := x]> (delete prop el)).
  split; [|split; [|split]].
  - rewrite (replacePropInElement_literal _ _ _ _ x Hprop).
    rewrite assign_insert by (by left).
    destruct v as [[| |[]| |]|]; done.
  - apply lookup_insert_eq.
  - intros Hne. rewrite lookup_insert_ne by done. apply lookup_delete_eq.
  - intros k Hk1 Hk2. rewrite lookup_insert_ne by done.
    by apply lookup_delete_ne.
Qed.

Lemma replacePropInElement_literal_renames_witness :
  firstName_element !! "label" = Some (VPrim (VStr "First Name"))
  ∧ VPrim VNull ≠ VPrim (VBool false)
  ∧ ToPropertyKey VNull ≠ "__proto__"
  ∧ ∃ el',
      replacePropInElement development firstName_element "label"
        (DVal VNull) = (el', [])
      ∧ el' !! ToPropertyKey VNull = Some (VPrim (VStr "First Name"))
      ∧ (ToPropertyKey VNull ≠ "label" → el' !! "label" = None)
      ∧ ∀ k, k ≠ ToPropertyKey VNull → k ≠ "label" →
             el' !! k = firstName_element !! k.
Proof.
  split; [reflexivity|]. split; [discriminate|]. split; [discriminate|].
  apply (replacePropInElement_literal_renames development firstName_element
           "label" VNull (VPrim (VStr "First Name")));
    [reflexivity | discriminate | discriminate].
Defined.

Lemma falsy_literals_keys :
  ToPropertyKey VNull = "null" ∧ ToPropertyKey VUndefined = "undefined"
  ∧ ToPropertyKey (VNum false "0") = "0" ∧ ToPropertyKey (VStr "") = "".
Proof. repeat split. Qed.

(** ** The property mapper *)

Lemma mapProperties_loop_snd (proc : process) (s : schema)
    (entries : mapping) (schemaCopy : option schema) :
  (mapProperties_loop proc s entries schemaCopy).2
  = concat ((λ e : string * directive,
               (mapElementsInSchema s (λ el,
                  replacePropInElement proc el e.1 e.2)).2) <$> entries).
Proof.
  revert schemaCopy. induction entries as [|[p r] entries IH]; intros acc.
  - done.
  - simpl. rewrite W_bind_unfold. simpl. by rewrite IH.
Qed.

Lemma mapProperties_primitive_identity_aux (proc : process) (s : schema)
    (p : primitive) :
  mapProperties proc s (MPPrim p) = (Some s, []).
Proof.
  unfold mapProperties. destruct p as [| |b|b text|str]; try done.
  - by destruct b.
  - by destruct b.
  - simpl. by destruct (negb (String.eqb str "")).
Qed.

(** X9. A [mapProps] that is a primitive (the default [null],
    [undefined], a boolean, a number or a string) leaves the schema as
    it is and writes nothing to the console. *)
Theorem mapProperties_primitive_is_identity (proc : process) (s : schema)
    (p : primitive) :
  mapProperties proc s (MPPrim p) = (Some s, []).
Proof. apply mapProperties_primitive_identity_aux. Qed.

(** X10. For a static mapping with at least one key, the schema that
    [mapProperties] returns is the walk of the last key over the input
    schema: the rewrites of the keys before it do not reach the
    result. *)
Theorem mapProperties_static_is_last_walk (proc : process) (s : schema)
    (init : mapping) (prop : string) (replacement : directive) :
  (mapProperties proc s (MPObj (init ++ [(prop, replacement)]))).1
  = Some (mapElementsInSchema s (λ el,
            replacePropInElement proc el prop replacement)).1.
Proof. unfold mapProperties. simpl. apply mapProperties_loop_last. Qed.

(** X11. For a static mapping, the console receives what the walk of
    every key over the input schema writes, in the order of the keys:
    the walks whose results are dropped are still run. *)
Theorem mapProperties_static_console (proc : process) (s : schema)
    (entries : mapping) :
  (mapProperties proc s (MPObj entries)).2
  = concat ((λ e : string * directive,
               (mapElementsInSchema s (λ el,
                  replacePropInElement proc el e.1 e.2)).2) <$> entries).
Proof. unfold mapProperties. simpl. apply mapProperties_loop_snd. Qed.

(** X12. When the last key of a static mapping is a rename to a string
    other than [__proto__], every element that has the property comes
    out, at its position, with the value under the new name and the old
    name gone; the other names read as in the input. *)
Theorem mapProperties_static_last_rename (proc : process) (s : schema)
    (init : mapping) (prop key : string) (i j : nat) (el : element)
    (x : value) :
  elementAt s i j = Some el →
  el !! prop = Some x →
  key ≠ prop →
  key ≠ "__proto__" →
  ∃ s' el',
    (mapProperties proc s (MPObj (init ++ [(prop, DVal (VStr key))]))).1
    = Some s'
    ∧ elementAt s' i j = Some el'
    ∧ el' !! key = Some x
    ∧ el' !! prop = None
    ∧ ∀ k, k ≠ key → k ≠ prop → el' !! k = el !! k.
Proof.
  intros Hel Hprop Hne Hkey.
  eexists _, (<[key := x]> (delete prop el)).
  split; [unfold mapProperties; simpl; apply mapProperties_loop_last|].
  split; [|split; [|split]].
  - rewrite mapElementsInSchema_elementAt, Hel.
    cbn -[replacePropInElement].
    rewrite (replacePropInElement_literal _ _ _ _ x Hprop). simpl.
    by rewrite assign_insert by (by left).
  - apply lookup_insert_eq.
  - rewrite lookup_insert_ne by done. apply lookup_delete_eq.
  - intros k Hk1 Hk2. rewrite lookup_insert_ne by done.
    by apply lookup_delete_ne.
Qed.

Lemma mapProperties_static_last_rename_witness :
  elementAt [[firstName_element]] 0 0 = Some firstName_element
  ∧ firstName_element !! "label" = Some (VPrim (VStr "First Name"))
  ∧ "tag" ≠ "label"
  ∧ "tag" ≠ "__proto__"
  ∧ ∃ s' el',
      (mapProperties development [[firstName_element]]
         (MPObj ([] ++ [("label", DVal (VStr "tag"))]))).1 = Some s'
      ∧ elementAt s' 0 0 = Some el'
      ∧ el' !! "tag" = Some (VPrim (VStr "First Name"))
      ∧ el' !! "label" = None
      ∧ ∀ k, k ≠ "tag" → k ≠ "label" → el' !! k = firstName_element !! k.
Proof.
  split; [reflexivity|]. split; [reflexivity|]. split; [discriminate|].
  split; [discriminate|].
  apply (mapProperties_static_last_rename development [[firstName_element]]
           [] "label" "tag" 0 0 firstName_element
           (VPrim (VStr "First Name")));
    [reflexivity | reflexivity | discriminate | discriminate].
Defined.

(** X13. When the last key of a static mapping has the directive
    [false], no element of the schema returned has that property. *)
Theorem mapProperties_static_last_delete (proc : process) (s s' : schema)
    (init : mapping) (prop : string) (i j : nat) (el' : element) :
  (mapProperties proc s (MPObj (init ++ [(prop, DVal (VBool false))]))).1
  = Some s' →
  elementAt s' i j = Some el' →
  el' !! prop = None.
Proof.
  unfold mapProperties. simpl. rewrite mapProperties_loop_last.
  intros [= <-]. rewrite mapElementsInSchema_elementAt.
  destruct (elementAt s i j) as [el|]; [|done]. simpl. intros [= <-].
  apply replacePropInElement_false_absent.
Qed.

Lemma mapProperties_static_last_delete_witness :
  (mapProperties development [[firstName_element]]
     (MPObj ([] ++ [("label", DVal (VBool false))]))).1
  = Some [[delete "label" firstName_element]]
  ∧ elementAt [[delete "label" firstName_element]] 0 0
    = Some (delete "label" firstName_element)
  ∧ delete "label" firstName_element !! "label" = None.
Proof.
  assert (H1 : (mapProperties development [[firstName_element]]
                  (MPObj ([] ++ [("label", DVal (VBool false))]))).1
               = Some [[delete "label" firstName_element]])
    by reflexivity.
  assert (H2 : elementAt [[delete "label" firstName_element]] 0 0
               = Some (delete "label" firstName_element)) by reflexivity.
  split; [exact H1|]. split; [exact H2|].
  exact (mapProperties_static_last_delete development [[firstName_element]]
           [[delete "label" firstName_element]] [] "label" 0 0
           (delete "label" firstName_element) H1 H2).
Defined.

Lemma mapPropsForElement_cons_fst (proc : process) (el : element)
    (prop : string) (replacement : directive) (rest : mapping) :
  (mapPropsForElement proc el ((prop, replacement) :: rest)).1
  = (mapPropsForElement proc
       (replacePropInElement proc el prop replacement).1 rest).1.
Proof. simpl. by rewrite W_bind_unfold. Qed.

Lemma mapPropsForElement_snoc_fst (proc : process) (el : element)
    (init : mapping) (prop : string) (replacement : directive) :
  (mapPropsForElement proc el (init ++ [(prop, replacement)])).1
  = (replacePropInElement proc (mapPropsForElement proc el init).1
       prop replacement).1.
Proof.
  revert el. induction init as [|[p r] init IH]; intros el.
  - simpl. by rewrite W_bind_unfold.
  - rewrite <- app_comm_cons, !mapPropsForElement_cons_fst. apply IH.
Qed.

(** X14. With a function that returns the same mapping for every
    element, the function branch yields the schema obtained by walking
    the whole schema once per key, in the order of the keys, each walk
    taking the schema produced by the walk before it. *)
Theorem mapPropertiesWithUserFunction_constant_is_sequential
    (proc : process) (s : schema) (entries : mapping) :
  (mapPropertiesWithUserFunction proc s (λ _, entries)).1
  = foldl (λ (acc : schema) (e : string * directive),
             (mapElementsInSchema acc (λ el,
                replacePropInElement proc el e.1 e.2)).1) s entries.
Proof.
  revert s. induction entries as [|[p r] entries IH]; intros s.
  - unfold mapPropertiesWithUserFunction. rewrite mapElementsInSchema_fst.
    simpl. rewrite <- (list_fmap_id s) at 2.
    apply list_fmap_ext. intros _ row _. apply list_fmap_id.
  - simpl. rewrite <- IH.
    unfold mapPropertiesWithUserFunction.
    rewrite !mapElementsInSchema_fst, <- list_fmap_compose.
    apply list_fmap_ext. intros _ row _. simpl.
    rewrite <- list_fmap_compose.
    apply list_fmap_ext. intros _ el _. simpl.
    by rewrite W_bind_unfold.
Qed.

(** X15. In the function branch, an element whose own mapping ends with
    a key of directive [false] comes out, at its position, without that
    property, whatever the keys before it did. *)
Theorem mapPropertiesWithUserFunction_last_delete
    (proc : process) (s : schema) (fn : element → mapping)
    (init : mapping) (prop : string) (i j : nat) (el : element) :
  elementAt s i j = Some el →
  fn el = init ++ [(prop, DVal (VBool false))] →
  ∃ el',
    elementAt (mapPropertiesWithUserFunction proc s fn).1 i j = Some el'
    ∧ el' !! prop = None.
Proof.
  intros Hel Hfn. eexists. split.
  - unfold mapPropertiesWithUserFunction.
    rewrite mapElementsInSchema_elementAt, Hel. reflexivity.
  - simpl. rewrite Hfn, mapPropsForElement_snoc_fst.
    apply replacePropInElement_false_absent.
Qed.

Lemma mapPropertiesWithUserFunction_last_delete_witness :
  elementAt [[firstName_element]] 0 0 = Some firstName_element
  ∧ (λ _ : element, [("label", DVal (VBool false))]) firstName_element
    = [] ++ [("label", DVal (VBool false))]
  ∧ ∃ el',
      elementAt
        (mapPropertiesWithUserFunction development [[firstName_element]]
           (λ _, [("label", DVal (VBool false))])).1 0 0 = Some el'
      ∧ el' !! "label" = None.
Proof.
  split; [reflexivity|]. split; [reflexivity|].
  apply (mapPropertiesWithUserFunction_last_delete development
           [[firstName_element]] (λ _, [("label", DVal (VBool false))])
           [] "label" 0 0 firstName_element); reflexivity.
Defined.

(** X16. A static mapping with a single key and a function that returns
    that one-key mapping for every element give the same schema and
    the same console output. *)
Theorem mapProperties_single_key_static_or_function
    (proc : process) (s : schema) (prop : string) (replacement : directive) :
  mapProperties proc s (MPObj [(prop, replacement)])
  = mapProperties proc s (MPFun (λ _, [(prop, replacement)])).
Proof.
  assert (Heq : mapPropertiesWithUserFunction proc s
                  (λ _, [(prop, replacement)])
                = mapElementsInSchema s (λ el,
                    replacePropInElement proc el prop replacement)).
  { unfold mapPropertiesWithUserFunction, mapElementsInSchema.
    apply mapM_W_ext. intros r _.
    apply mapM_W_ext. intros el _. simpl. apply W_bind_ret. }
  unfold mapProperties.
  change (mapProperties_loop proc s [(prop, replacement)] None
          = Some <$$> mapPropertiesWithUserFunction proc s
                        (λ _, [(prop, replacement)])).
  rewrite Heq. cbn [mapProperties_loop]. rewrite W_bind_unfold.
  unfold wmap. simpl. by rewrite app_nil_r.
Qed.

(** ** The console *)

Section Console.
Variable proc : process.
Variable P : consoleWarn → Prop.
Hypothesis rewriter_log :
  ∀ el prop replacement,
    Forall P (replacePropInElement proc el prop replacement).2.

Lemma mapPropsForElement_log_Forall (el : element) (map : mapping) :
  Forall P (mapPropsForElement proc el map).2.
Proof.
  revert el. induction map as [|[prop r] map IH]; intros el; simpl.
  - constructor.
  - rewrite W_bind_unfold. simpl. apply Forall_app. split; [|apply IH].
    apply rewriter_log.
Qed.

Lemma mapProperties_log_Forall (s : schema) (mapProps : mapPropsArg) :
  Forall P (mapProperties proc s mapProps).2.
Proof.
  unfold mapProperties. destruct (_ || _); [constructor|].
  destruct mapProps as [p|fn|entries]; simpl.
  - constructor.
  - apply mapElementsInSchema_log_Forall. intros el.
    apply mapPropsForElement_log_Forall.
  - rewrite mapProperties_loop_snd.
    apply Forall_concat, Forall_fmap, Forall_true. intros [prop r]. simpl.
    apply mapElementsInSchema_log_Forall. intros el. apply rewriter_log.
Qed.

Lemma LookupPlugin_log_Forall (cfg : configuration) (s : schema) :
  Forall P (LookupPlugin proc cfg s).2.
Proof.
  unfold LookupPlugin. rewrite W_bind_unfold. simpl.
  apply Forall_app. split; [apply mapProperties_log_Forall|].
  destruct (mapProperties _ _ _).1; simpl; [|constructor].
  destruct (default (MCObj ∅) (cfg_mapComponents cfg)); simpl; [|constructor].
  rewrite mapComps_silent. constructor.
Qed.
End Console.

(** X17. When warnings are off (a production build, or no
    [process.env]), the plugin writes nothing to the console, whatever
    the options and the schema. *)
Theorem LookupPlugin_silent_in_production (proc : process)
    (cfg : configuration) (s : schema) :
  warnEnabled proc = false →
  (LookupPlugin proc cfg s).2 = [].
Proof.
  intros Hoff.
  assert (Hall : Forall (λ _, False) (LookupPlugin proc cfg s).2).
  { apply LookupPlugin_log_Forall. intros el prop r.
    rewrite replacePropInElement_log_off by done. constructor. }
  destruct (LookupPlugin proc cfg s).2 as [|w l]; [done|].
  by apply Forall_cons_1 in Hall as [[] _].
Qed.

Lemma LookupPlugin_silent_in_production_witness :
  warnEnabled production = false
  ∧ (LookupPlugin production
       {| cfg_mapComponents := None;
          cfg_mapProps := Some (MPObj [("info", DVal (VStr "label"))]) |}
       [[firstName_element]]).2 = [].
Proof.
  split; [reflexivity|].
  apply (LookupPlugin_silent_in_production production
           {| cfg_mapComponents := None;
              cfg_mapProps := Some (MPObj [("info", DVal (VStr "label"))]) |}
           [[firstName_element]]).
  reflexivity.
Defined.

(** X18. Every entry the plugin writes to the console reports a
    property together with an element that does not have it. *)
Theorem LookupPlugin_warnings_report_missing (proc : process)
    (cfg : configuration) (s : schema) (w : consoleWarn) :
  w ∈ (LookupPlugin proc cfg s).2 →
  warn_el w !! warn_prop w = None.
Proof.
  revert w. apply Forall_forall, LookupPlugin_log_Forall.
  apply replacePropInElement_log_sound.
Qed.

Lemma LookupPlugin_warnings_report_missing_witness :
  Warn "info" firstName_element
    ∈ (LookupPlugin development
         {| cfg_mapComponents := None;
            cfg_mapProps := Some (MPObj [("info", DVal (VStr "label"))]) |}
         [[firstName_element]]).2
  ∧ warn_el (Warn "info" firstName_element)
      !! warn_prop (Warn "info" firstName_element) = None.
Proof.
  assert (Hin : Warn "info" firstName_element
                  ∈ (LookupPlugin development
                       {| cfg_mapComponents := None;
                          cfg_mapProps :=
                            Some (MPObj [("info", DVal (VStr "label"))]) |}
                       [[firstName_element]]).2).
  { vm_compute. left. }
  split; [exact Hin|].
  exact (LookupPlugin_warnings_report_missing development _ _ _ Hin).
Defined.

(** ** The pipeline *)

Lemma no_elements_shape (s s' : schema) :
  shape s' = shape s → no_elements s' = no_elements s.
Proof.
  revert s'. induction s as [|r s IH]; intros [|r' s']; try done.
  unfold shape. simpl. intros [= Hr Hs]. rewrite (IH s' Hs).
  by destruct r, r'.
Qed.

(** X19. For a schema that is an array of rows of plain objects, and a
    [mapComponents] that is a table, [null] or absent, the plugin ends
    with a [TypeError] in exactly two cases: [mapProps] is a static
    mapping without keys; or [mapComponents] is [null] and some row has
    an element. *)
Theorem LookupPlugin_throws_iff (proc : process)
    (cfg : configuration) (s : schema) :
  (LookupPlugin proc cfg s).1 = TypeError
  ↔ cfg_mapProps cfg = Some (MPObj [])
    ∨ (cfg_mapComponents cfg = Some MCNull ∧ no_elements s = false).
Proof.
  unfold LookupPlugin. rewrite W_bind_unfold.
  cbn -[mapProperties mapComps].
  destruct (mapProperties proc s (default (MPPrim VNull) (cfg_mapProps cfg))).1
    as [s1|] eqn:Hs1.
  - pose proof (mapProperties_shape _ _ _ _ Hs1) as Hshape.
    apply no_elements_shape in Hshape.
    assert (Hprops : cfg_mapProps cfg ≠ Some (MPObj [])).
    { intros Heq. by rewrite Heq in Hs1. }
    destruct (cfg_mapComponents cfg) as [[table|]|]; cbn -[mapComps].
    + split; [done|]. by intros [?|[? _]].
    + unfold mapComps_null. rewrite Hshape.
      destruct (no_elements s); split; try done.
      * by intros [?|[_ ?]].
      * intros _. by right.
    + split; [done|]. by intros [?|[? _]].
  - simpl. split; [intros _; left | done].
    destruct (cfg_mapProps cfg) as [[p|fn|[|e entries]]|]; cbn in Hs1.
    + by rewrite mapProperties_primitive_identity_aux in Hs1.
    + done.
    + done.
    + destruct (mapProperties_nonempty_returns proc s (e :: entries))
        as [s' Hs']; [done|].
      by rewrite Hs' in Hs1.
    + done.
Qed.



(** With the default table, a component tag that names a member of
    [Object.prototype] is remapped to that member. *)
Example LookupPlugin_default_table_inherited :
  (LookupPlugin development
     {| cfg_mapComponents := None; cfg_mapProps := None |}
     [[ {[ "component" := VPrim (VStr "toString") ]} ]]).1
  = Returned [[ {[ "component"
                     := VObj "function toString() { [native code] }" ]} ]].
Proof. vm_compute. reflexivity. Qed.

(** X21. With the single key [prop] renamed to [component] and a table
    that lists the element's value of [prop] with a truthy target, the
    plugin returns a schema whose element at the same position is the
    input element without [prop] and with [component] set to the
    target. *)
Theorem LookupPlugin_rename_then_remap (proc : process) (s : schema)
    (mapComponents : gmap string value) (prop tag : string)
    (target : value) (i j : nat) (el : element) :
  elementAt s i j = Some el →
  el !! prop = Some (VPrim (VStr tag)) →
  prop ≠ "component" →
  mapComponents !! tag = Some target →
  ToBoolean target = true →
  ∃ s',
    (LookupPlugin proc
       {| cfg_mapComponents := Some (MCObj mapComponents);
          cfg_mapProps := Some (MPObj [(prop, DVal (VStr "component"))]) |}
       s).1 = Returned s'
    ∧ elementAt s' i j = Some (<["component" := target]> (delete prop el)).
Proof.
  intros Hel Hprop Hne Htag Htrue.
  assert (Hprops :
    (mapProperties proc s (MPObj [(prop, DVal (VStr "component"))])).1
    = Some (mapElementsInSchema s (λ el,
              replacePropInElement proc el prop
                (DVal (VStr "component")))).1).
  { unfold mapProperties. cbn -[mapProperties_loop].
    apply (mapProperties_loop_last proc s []). }
  unfold LookupPlugin. rewrite W_bind_unfold.
  cbn -[mapProperties mapComps]. rewrite Hprops.
  cbn -[mapComps mapElementsInSchema replacePropInElement].
  eexists. split; [reflexivity|].
  unfold mapComps. rewrite !mapElementsInSchema_elementAt, Hel.
  cbn -[mapComps_fn replacePropInElement].
  rewrite (replacePropInElement_literal _ _ _ _ _ Hprop).
  cbn -[mapComps_fn assign]. rewrite assign_insert by (by left).
  rewrite (mapComps_fn_mapped _ _ tag target); [| |done..].
  - simpl. by rewrite insert_insert_eq.
  - apply lookup_insert_eq.
Qed.

Lemma LookupPlugin_rename_then_remap_witness :
  elementAt [[firstName_element]] 0 0 = Some firstName_element
  ∧ firstName_element !! "type" = Some (VPrim (VStr "FormText"))
  ∧ "type" ≠ "component"
  ∧ ({[ "FormText" := VPrim (VStr "BaseInput") ]} : gmap string value)
      !! "FormText" = Some (VPrim (VStr "BaseInput"))
  ∧ ToBoolean (VPrim (VStr "BaseInput")) = true
  ∧ ∃ s',
      (LookupPlugin development
         {| cfg_mapComponents :=
              Some (MCObj {[ "FormText" := VPrim (VStr "BaseInput") ]});
            cfg_mapProps :=
              Some (MPObj [("type", DVal (VStr "component"))]) |}
         [[firstName_element]]).1 = Returned s'
      ∧ elementAt s' 0 0
        = Some (<["component" := VPrim (VStr "BaseInput")]>
                  (delete "type" firstName_element)).
Proof.
  split; [reflexivity|]. split; [reflexivity|]. split; [discriminate|].
  split; [reflexivity|]. split; [reflexivity|].
  apply (LookupPlugin_rename_then_remap development [[firstName_element]]
           {[ "FormText" := VPrim (VStr "BaseInput") ]} "type" "FormText"
           (VPrim (VStr "BaseInput")) 0 0 firstName_element);
    [reflexivity | reflexivity | discriminate | reflexivity | reflexivity].
Defined.

(** X22. Whenever the plugin returns a schema, it has as many rows as
    the input and every row has as many elements as the row of the
    input at its place. *)
Theorem LookupPlugin_keeps_shape (proc : process) (cfg : configuration)
    (s s' : schema) :
  (LookupPlugin proc cfg s).1 = Returned s' →
  shape s' = shape s.
Proof.
  unfold LookupPlugin. rewrite W_bind_unfold. cbn -[mapProperties mapComps].
  destruct (mapProperties proc s _).1 as [s1|] eqn:Hs1; [|done].
  apply mapProperties_shape in Hs1.
  destruct (default (MCObj ∅) (cfg_mapComponents cfg)); cbn -[mapComps].
  - intros [= <-]. by rewrite mapComps_shape.
  - unfold mapComps_null. destruct (no_elements s1); [|done].
    by intros [= <-].
Qed.

Lemma LookupPlugin_keeps_shape_witness :
  (LookupPlugin development scenario_configuration [[firstName_element]]).1
  = Returned [[delete "label" firstName_element]]
  ∧ shape [[delete "label" firstName_element]] = shape [[firstName_element]].
Proof.
  assert (H : (LookupPlugin development scenario_configuration
                 [[firstName_element]]).1
              = Returned [[delete "label" firstName_element]])
    by (vm_compute; reflexivity).
  split; [exact H|].
  exact (LookupPlugin_keeps_shape development scenario_configuration
           [[firstName_element]] [[delete "label" firstName_element]] H).
Defined.


(** * Further properties of the store-level model *)

(** ** Which objects the rewriter returns *)

(** X23. When the property name is not present on the element ([prop
    in el] is false), or the directive is a function whose result is
    falsy, the rewriter returns the very location it was given and
    leaves every object of the store as it is: the result is the input
    object, not a copy. *)
Theorem replacePropInElement_returns_input_object
    (proc : process) (σ : Heap.state) (el : Heap.loc) (props : element)
    (prop : string) (replacement : directive) :
  Heap.element_at (Heap.heap σ) el = Some props →
  (has_property props prop = false
   ∨ ∃ f, replacement = DFun f ∧ ToBoolean (f props) = false) →
  ∃ σ', Heap.replacePropInElement proc el prop replacement σ
        = (Heap.Val el, σ')
        ∧ Heap.heap σ' = Heap.heap σ.
Proof.
  intros Hel Hcase. unfold Heap.replacePropInElement.
  unfold mbind at 1, Heap.ST_bind at 1. rewrite (read_element_at _ _ _ Hel).
  destruct Hcase as [Hmiss | (f & -> & Hf)].
  - rewrite Hmiss. destruct replacement as [v|f].
    + destruct (warnEnabled proc); by eexists.
    + destruct (negb (ToBoolean (f props))); [by eexists|].
      destruct (warnEnabled proc); by eexists.
  - rewrite Hf. by eexists.
Qed.

Lemma replacePropInElement_returns_input_object_witness :
  Heap.element_at (Heap.heap Heap.scenario_state) 1%positive
  = Some firstName_element
  ∧ (has_property firstName_element "info" = false
     ∨ ∃ f, DVal (VStr "label") = DFun f
            ∧ ToBoolean (f firstName_element) = false)
  ∧ ∃ σ', Heap.replacePropInElement development 1%positive "info"
            (DVal (VStr "label")) Heap.scenario_state
          = (Heap.Val 1%positive, σ')
          ∧ Heap.heap σ' = Heap.heap Heap.scenario_state.
Proof.
  split; [reflexivity|]. split; [left; reflexivity|].
  apply (replacePropInElement_returns_input_object development
           Heap.scenario_state 1%positive firstName_element "info"
           (DVal (VStr "label")));
    [reflexivity | left; reflexivity].
Defined.

(** A name that the element only inherits counts as present: the
    rewriter allocates a copy, here for the name [toString]. *)
Example replacePropInElement_inherited_name_copies :
  match Heap.replacePropInElement development 1%positive "toString"
          (DVal (VStr "label")) Heap.scenario_state with
  | (Heap.Val l', σ') =>
      l' ≠ 1%positive
      ∧ Heap.heap Heap.scenario_state !! l' = None
      ∧ Heap.console σ' = []
  | _ => False
  end.
Proof. vm_compute. repeat split. discriminate. Qed.

(** X24. When the element has the property and the directive is not a
    function with a falsy result, the rewriter returns a location that
    was unused before the call, and the object there is the value-level
    result for the contents of the input. *)
Theorem replacePropInElement_returns_new_object
    (proc : process) (σ : Heap.state) (el : Heap.loc) (props : element)
    (prop : string) (replacement : directive) (x : value) :
  Heap.element_at (Heap.heap σ) el = Some props →
  props !! prop = Some x →
  proceeds replacement props →
  ∃ l' σ',
    Heap.replacePropInElement proc el prop replacement σ = (Heap.Val l', σ')
    ∧ Heap.heap σ !! l' = None
    ∧ Heap.element_at (Heap.heap σ') l'
      = Some (replacePropInElement proc props prop replacement).1.
Proof.
  intros Hel Hprop Hgo.
  destruct (replacePropInElement_refines proc prop replacement σ el props Hel)
    as (l' & σ' & Hrun & _ & Hl').
  exists l', σ'. split; [exact Hrun|]. split; [|exact Hl'].
  revert Hrun. unfold Heap.replacePropInElement.
  unfold mbind at 1, Heap.ST_bind at 1. rewrite (read_element_at _ _ _ Hel).
  rewrite (has_property_own _ _ _ Hprop), (get_own _ _ _ Hprop).
  cbn [negb].
  assert (Hcopy : ∀ v,
    (elementCopy ← Heap.alloc (Heap.OElement props);
     Heap.delete_prop elementCopy prop ;;
     if is_false v then mret elementCopy
     else Heap.set_prop elementCopy (ToPropertyKey v) x ;; mret elementCopy)
      σ = (Heap.Val l', σ') →
    Heap.heap σ !! l' = None).
  { intros v. destruct (is_false v); run_store; intros [= <- _];
      apply fresh_not_allocated. }
  destruct replacement as [v|f]; [apply Hcopy|].
  simpl in Hgo. rewrite Hgo. apply Hcopy.
Qed.

Lemma replacePropInElement_returns_new_object_witness :
  Heap.element_at (Heap.heap Heap.scenario_state) 1%positive
  = Some firstName_element
  ∧ firstName_element !! "label" = Some (VPrim (VStr "First Name"))
  ∧ proceeds (DVal (VBool false)) firstName_element
  ∧ ∃ l' σ',
      Heap.replacePropInElement development 1%positive "label"
        (DVal (VBool false)) Heap.scenario_state = (Heap.Val l', σ')
      ∧ Heap.heap Heap.scenario_state !! l' = None
      ∧ Heap.element_at (Heap.heap σ') l'
        = Some (replacePropInElement development firstName_element "label"
                  (DVal (VBool false))).1.
Proof.
  split; [reflexivity|]. split; [reflexivity|]. split; [exact I|].
  apply (replacePropInElement_returns_new_object development
           Heap.scenario_state 1%positive firstName_element "label"
           (DVal (VBool false)) (VPrim (VStr "First Name")));
    [reflexivity | reflexivity | exact I].
Defined.

(** X25. With a primitive [mapProps], [mapProperties] returns the
    location of the input schema itself and does not touch the store or
    the console. *)
Theorem mapProperties_primitive_returns_input_schema
    (proc : process) (σ : Heap.state) (s : Heap.loc) (p : primitive) :
  Heap.mapProperties proc s (MPPrim p) σ = (Heap.Val (Some s), σ).
Proof.
  unfold Heap.mapProperties. destruct p as [| |b|b text|str]; try done.
  - by destruct b.
  - by destruct b.
  - simpl. by destruct (negb (String.eqb str "")).
Qed.

(** ** The output of the component mapper is made of new objects *)

Lemma new_element_monotone (h0 h h' : gmap positive Heap.object)
    (l : Heap.loc) :
  h ⊆ h' → Heap.new_element h0 h l → Heap.new_element h0 h' l.
Proof.
  intros Hsub [Hnew [props Hl]]. split; [done|]. exists props.
  by eapply lookup_weaken.
Qed.

Lemma new_array_monotone
    (Q : gmap positive Heap.object → Heap.loc → Prop)
    (h0 h h' : gmap positive Heap.object) (l : Heap.loc) :
  (∀ h h' l, h ⊆ h' → Q h l → Q h' l) →
  h ⊆ h' → Heap.new_array Q h0 h l → Heap.new_array Q h0 h' l.
Proof.
  intros HQ Hsub [Hnew (items & Hl & Hitems)]. split; [done|].
  exists items. split; [by eapply lookup_weaken|].
  eapply Forall_impl; [exact Hitems|]. intros x. by apply HQ.
Qed.

Section NewObjects.
Variable h0 : gmap positive Heap.object.
Variable Q : gmap positive Heap.object → Heap.loc → Prop.
Hypothesis Q_mono : ∀ h h' l, h ⊆ h' → Q h l → Q h' l.
Variable fn : Heap.loc → Heap.ST Heap.loc.
Hypothesis fn_frame : ∀ l, frame (fn l).
Hypothesis fn_new :
  ∀ l σ l' σ', h0 ⊆ Heap.heap σ → fn l σ = (Heap.Val l', σ') →
               Q (Heap.heap σ') l'.

Lemma mapM_new (items : list Heap.loc) (σ σ' : Heap.state)
    (items' : list Heap.loc) :
  h0 ⊆ Heap.heap σ →
  mapM fn items σ = (Heap.Val items', σ') →
  Forall (Q (Heap.heap σ')) items'.
Proof.
  revert σ σ' items'. induction items as [|l items IH]; intros σ σ' items' H0.
  - intros [= <- <-]. constructor.
  - cbn [mapM]. unfold mbind at 1, Heap.ST_bind at 1.
    pose proof (fn_frame l σ) as Hun1.
    destruct (fn l σ) as [[l1|] σ1] eqn:Hrun1; [|done]. simpl in Hun1.
    unfold mbind at 1, Heap.ST_bind at 1.
    pose proof (frame_mapM fn items fn_frame σ1) as Hun2.
    destruct (mapM fn items σ1) as [[items1|] σ2] eqn:Hrun2; [|done].
    simpl in Hun2. intros [= <- <-].
    apply unchanged_subseteq in Hun1, Hun2. constructor.
    + eapply Q_mono; [exact Hun2|]. by eapply fn_new.
    + eapply IH; [|exact Hrun2]. by etrans.
Qed.

Lemma array_map_new (arr : Heap.loc) (σ σ' : Heap.state) (l' : Heap.loc) :
  h0 ⊆ Heap.heap σ →
  Heap.array_map arr fn σ = (Heap.Val l', σ') →
  Heap.new_array Q h0 (Heap.heap σ') l'.
Proof.
  intros H0. unfold Heap.array_map, Heap.read_array.
  unfold mbind at 1, Heap.ST_bind at 1.
  destruct (Heap.heap σ !! arr) as [[|items]|]; try done.
  unfold mbind at 1, Heap.ST_bind at 1.
  pose proof (frame_mapM fn items fn_frame σ) as Hun.
  destruct (mapM fn items σ) as [[items1|] σ1] eqn:Hrun; [|done].
  simpl in Hun. apply unchanged_subseteq in Hun.
  intros [= <- <-]. simpl. split; [|exists items1; split].
  - eapply lookup_weaken_None; [apply fresh_not_allocated|]. by etrans.
  - apply lookup_insert_eq.
  - eapply Forall_impl; [by eapply mapM_new|].
    intros x. apply Q_mono, insert_subseteq, fresh_not_allocated.
Qed.
End NewObjects.

Lemma mapComps_fn_new (h0 : gmap positive Heap.object)
    (mapComponents : gmap string value) (l l' : Heap.loc)
    (σ σ' : Heap.state) :
  h0 ⊆ Heap.heap σ →
  Heap.mapComps_fn mapComponents l σ = (Heap.Val l', σ') →
  Heap.new_element h0 (Heap.heap σ') l'.
Proof.
  intros H0. unfold Heap.mapComps_fn, Heap.read_element.
  unfold mbind, Heap.ST_bind.
  destruct (Heap.heap σ !! l) as [[props|]|]; try done.
  destruct (negb _); intros [= <- <-]; simpl;
    (split; [by eapply lookup_weaken_None; [apply fresh_not_allocated|]
            | eexists; apply lookup_insert_eq]).
Qed.

Lemma mapComps_new (h0 : gmap positive Heap.object)
    (mapComponents : gmap string value) (s s' : Heap.loc)
    (σ σ' : Heap.state) :
  h0 ⊆ Heap.heap σ →
  Heap.mapComps s mapComponents σ = (Heap.Val s', σ') →
  Heap.new_schema h0 (Heap.heap σ') s'.
Proof.
  intros H0 Hrun. unfold Heap.new_schema.
  eapply (array_map_new h0 (Heap.new_array (Heap.new_element h0) h0));
    [| |intros r σ1 r' σ1' H1 Hrow|exact H0|exact Hrun].
  - intros h h' l. apply new_array_monotone. intros h1 h2 l1.
    apply new_element_monotone.
  - intros r. apply frame_array_map, frame_mapComps_fn.
  - eapply (array_map_new h0 (Heap.new_element h0));
      [| |intros el σ2 el' σ2' H2 Hel|exact H1|exact Hrow].
    + intros h h' l. apply new_element_monotone.
    + apply frame_mapComps_fn.
    + by eapply mapComps_fn_new.
Qed.

Lemma mapComps_null_new (h0 : gmap positive Heap.object)
    (s s' : Heap.loc) (σ σ' : Heap.state) :
  h0 ⊆ Heap.heap σ →
  Heap.mapComps_null s σ = (Heap.Val s', σ') →
  Heap.new_schema h0 (Heap.heap σ') s'.
Proof.
  intros H0 Hrun. unfold Heap.new_schema.
  eapply (array_map_new h0 (Heap.new_array (Heap.new_element h0) h0));
    [| |intros r σ1 r' σ1' H1 Hrow|exact H0|exact Hrun].
  - intros h h' l. apply new_array_monotone. intros h1 h2 l1.
    apply new_element_monotone.
  - intros r. apply frame_array_map. intros el. apply frame_throw.
  - eapply (array_map_new h0 (Heap.new_element h0));
      [| |intros el σ2 el' σ2' H2 Hel|exact H1|exact Hrow].
    + intros h h' l. apply new_element_monotone.
    + intros el. apply frame_throw.
    + discriminate Hel.
Qed.

(** X26. Run on a store that holds a schema at [s], [mapComps] returns
    a schema made of new objects only: the array of rows, every row and
    every element sit at locations that were unused before the call,
    also for the elements it does not remap. *)
Theorem mapComps_output_is_new (mapComponents : gmap string value)
    (s : Heap.loc) (S0 : schema) (σ : Heap.state) :
  Heap.schema_at (Heap.heap σ) s = Some S0 →
  ∃ s' σ',
    Heap.mapComps s mapComponents σ = (Heap.Val s', σ')
    ∧ Heap.schema_at (Heap.heap σ') s' = Some (mapComps S0 mapComponents).1
    ∧ Heap.new_schema (Heap.heap σ) (Heap.heap σ') s'.
Proof.
  intros HS.
  destruct (mapComps_refines mapComponents σ s S0 HS)
    as (s' & σ' & Hrun & _ & Hs').
  exists s', σ'. split; [exact Hrun|]. split; [exact Hs'|].
  by eapply mapComps_new.
Qed.

Lemma mapComps_output_is_new_witness :
  Heap.schema_at (Heap.heap Heap.scenario_state) 3%positive
  = Some [[firstName_element]]
  ∧ ∃ s' σ',
      Heap.mapComps 3%positive ∅ Heap.scenario_state = (Heap.Val s', σ')
      ∧ Heap.schema_at (Heap.heap σ') s'
        = Some (mapComps [[firstName_element]] ∅).1
      ∧ Heap.new_schema (Heap.heap Heap.scenario_state) (Heap.heap σ') s'.
Proof.
  split; [reflexivity|].
  apply (mapComps_output_is_new ∅ 3%positive [[firstName_element]]
           Heap.scenario_state).
  reflexivity.
Defined.

(** X27. Whenever the plugin returns, on a store that holds a schema at
    [s], the schema it returns is made of new objects only: it shares
    no array and no element with its input, whatever [mapProps] did. *)
Theorem LookupPlugin_output_is_new (proc : process) (cfg : configuration)
    (s : Heap.loc) (S0 out : schema) (σ : Heap.state) :
  Heap.schema_at (Heap.heap σ) s = Some S0 →
  (LookupPlugin proc cfg S0).1 = Returned out →
  ∃ s' σ',
    Heap.LookupPlugin proc cfg s σ = (Heap.Val s', σ')
    ∧ Heap.schema_at (Heap.heap σ') s' = Some out
    ∧ Heap.new_schema (Heap.heap σ) (Heap.heap σ') s'.
Proof.
  intros HS Hout.
  destruct (LookupPlugin_refines proc cfg s S0 σ HS)
    as (r & σ' & Hrun & Hr).
  rewrite Hout in Hr. destruct r as [s'|]; [|done].
  exists s', σ'. split; [exact Hrun|]. split; [exact Hr|].
  revert Hrun. unfold Heap.LookupPlugin.
  unfold mbind at 1, Heap.ST_bind at 1.
  pose proof (frame_mapProperties proc s
                (default (MPPrim VNull) (cfg_mapProps cfg)) σ) as Hun.
  destruct (Heap.mapProperties proc s _ σ) as [[[s1|]|] σ1]; try done.
  simpl in Hun. apply unchanged_subseteq in Hun.
  destruct (default (MCObj ∅) (cfg_mapComponents cfg)).
  - by apply mapComps_new.
  - by apply mapComps_null_new.
Qed.

Lemma LookupPlugin_output_is_new_witness :
  Heap.schema_at (Heap.heap Heap.scenario_state) 3%positive
  = Some [[firstName_element]]
  ∧ (LookupPlugin development scenario_configuration
       [[firstName_element]]).1
    = Returned [[delete "label" firstName_element]]
  ∧ ∃ s' σ',
      Heap.LookupPlugin development scenario_configuration 3%positive
        Heap.scenario_state = (Heap.Val s', σ')
      ∧ Heap.schema_at (Heap.heap σ') s'
        = Some [[delete "label" firstName_element]]
      ∧ Heap.new_schema (Heap.heap Heap.scenario_state) (Heap.heap σ') s'.
Proof.
  split; [reflexivity|]. split; [vm_compute; reflexivity|].
  apply (LookupPlugin_output_is_new development scenario_configuration
           3%positive [[firstName_element]]
           [[delete "label" firstName_element]] Heap.scenario_state);
    [reflexivity | vm_compute; reflexivity].
Defined.

(** ** A schema that is not an array of rows *)

Lemma mapElementsInSchema_flat (σ : Heap.state) (s r : Heap.loc)
    (rows : list Heap.loc) (props : element)
    (fn : Heap.loc → Heap.ST Heap.loc) :
  Heap.heap σ !! s = Some (Heap.OArray (r :: rows)) →
  Heap.heap σ !! r = Some (Heap.OElement props) →
  Heap.mapElementsInSchema s fn σ = (Heap.Throw, σ).
Proof.
  intros Hs Hr. unfold Heap.mapElementsInSchema, Heap.array_map.
  unfold mbind at 1, Heap.ST_bind at 1. unfold Heap.read_array at 1.
  rewrite Hs. unfold mbind at 1, Heap.ST_bind at 1. cbn [mapM].
  unfold mbind at 1, Heap.ST_bind at 1.
  unfold mbind at 1, Heap.ST_bind at 1. unfold Heap.read_array at 1.
  by rewrite Hr.
Qed.

(** X28. Given a flat schema, an array whose first item is an element
    (without a [map] property) rather than a row, the plugin stops with
    a [TypeError], whatever the options, and the store is as it was. *)
Theorem LookupPlugin_flat_schema_throws (proc : process)
    (cfg : configuration) (σ : Heap.state) (s r : Heap.loc)
    (rows : list Heap.loc) (props : element) :
  Heap.heap σ !! s = Some (Heap.OArray (r :: rows)) →
  Heap.heap σ !! r = Some (Heap.OElement props) →
  props !! "map" = None →
  Heap.LookupPlugin proc cfg s σ = (Heap.Throw, σ).
Proof.
  intros Hs Hr _. unfold Heap.LookupPlugin.
  assert (Hwalk : ∀ fn, Heap.mapElementsInSchema s fn σ = (Heap.Throw, σ))
    by (intros fn; by eapply mapElementsInSchema_flat).
  unfold mbind at 1, Heap.ST_bind at 1. unfold Heap.mapProperties.
  destruct (_ || _).
  { simpl. destruct (default (MCObj ∅) (cfg_mapComponents cfg));
      [unfold Heap.mapComps | unfold Heap.mapComps_null]; apply Hwalk. }
  destruct (default (MPPrim VNull) (cfg_mapProps cfg))
    as [p|fn|[|[prop repl] entries]]; simpl.
  - done.
  - unfold mbind, Heap.ST_bind, Heap.mapPropertiesWithUserFunction.
    by rewrite Hwalk.
  - done.
  - unfold mbind at 1, Heap.ST_bind at 1. by rewrite Hwalk.
Qed.

Lemma LookupPlugin_flat_schema_throws_witness :
  Heap.heap Heap.flat_state !! 2%positive = Some (Heap.OArray [1%positive])
  ∧ Heap.heap Heap.flat_state !! 1%positive
    = Some (Heap.OElement firstName_element)
  ∧ firstName_element !! "map" = None
  ∧ Heap.LookupPlugin development scenario_configuration 2%positive
      Heap.flat_state = (Heap.Throw, Heap.flat_state).
Proof.
  split; [reflexivity|]. split; [reflexivity|]. split; [reflexivity|].
  apply (LookupPlugin_flat_schema_throws development scenario_configuration
           Heap.flat_state 2%positive 1%positive [] firstName_element);
    reflexivity.
Defined.
